(** * image-checker: the matching engine of index.js, embedded and verified

    The script compares the base64 text of image files with the text of a
    flat store file.  All of its string work goes through JavaScript regular
    expressions: [RegExp(...).test], [String.prototype.match] with the [g]
    flag and [String.prototype.replace].  The first half of this file is the
    part of that runtime the script exercises; the second half is the script
    itself, function by function, over an explicit world (input tree,
    store.db, logs.log, console); what [eval] makes of a command word that
    is not a name of the script is left to the runtime, a parameter of the
    development. *)

From Stdlib Require Import List Ascii String Arith Lia Bool NArith.
From Stdlib Require DecimalString DecimalNat.
Import ListNotations.

Open Scope string_scope.
Open Scope list_scope.

Set Implicit Arguments.

(** * Text

    JavaScript strings are modelled as lists of 8-bit characters: base64
    text, the configuration and every message of the script are ASCII. *)

Definition str := list ascii.

Definition lit (s : string) : str := list_ascii_of_string s.
Coercion lit : string >-> str.

Notation "a +++ b" := (@List.app ascii (a : str) (b : str))
  (at level 60, right associativity).

(** [a === b] on strings *)
Fixpoint str_eqb (a b : str) : bool :=
  match a, b with
  | [], [] => true
  | x :: a', y :: b' => Ascii.eqb x y && str_eqb a' b'
  | _, _ => false
  end.

Definition mem_char (c : ascii) (l : str) : bool := existsb (Ascii.eqb c) l.

(** [needle] occurs in [hay] as a contiguous run of characters. *)
Definition substring_of (needle hay : str) : Prop :=
  exists pre post : str, hay = pre ++ needle ++ post.

(** [strip_prefix p s] is what is left of [s] after its prefix [p]. *)
Fixpoint strip_prefix (p s : str) : option str :=
  match p with
  | [] => Some s
  | a :: p' =>
      match s with
      | b :: s' => if Ascii.eqb b a then strip_prefix p' s' else None
      | [] => None
      end
  end.

(** Array.prototype.join *)
Fixpoint join (sep : str) (l : list str) : str :=
  match l with
  | [] => []
  | [a] => a
  | a :: t => a ++ sep ++ join sep t
  end.

(** ** Numbers in text: [`${n}`] and the digits of a braced quantifier *)

Definition Number_toString (n : nat) : str :=
  lit (DecimalString.NilEmpty.string_of_uint (Nat.to_uint n)).

Definition digit_of (c : ascii) : option nat :=
  let n := nat_of_ascii c in
  if ((48 <=? n) && (n <=? 57))%nat then Some (n - 48)%nat else None.

Fixpoint read_digits (acc : nat) (s : str) : nat * str :=
  match s with
  | c :: t =>
      match digit_of c with
      | Some d => read_digits (10 * acc + d) t
      | None => (acc, s)
      end
  | [] => (acc, [])
  end.

(** DecimalDigits: at least one digit. *)
Definition read_nat (s : str) : option (nat * str) :=
  match s with
  | c :: _ =>
      match digit_of c with
      | Some _ => Some (read_digits 0 s)
      | None => None
      end
  | [] => None
  end.

(** * Regular expressions

    The fragment of the ECMAScript pattern language (without the [u] flag,
    with the Annex B extensions a browser or Node accepts) that the script
    can reach: pattern characters, [.], identity escapes, [^] and [$],
    alternation, groups and the quantifiers [*], [+], [?], [{n}], [{n,}],
    [{n,m}] with their lazy forms.  Character classes, class escapes such as
    [\d], look-around and back-references are outside the fragment: the
    parser refuses them, as it refuses a pattern that is a SyntaxError. *)

Inductive regex : Type :=
| Empty
| Char (c : ascii)
| Dot
| Bol
| Eol
| Seq (r1 r2 : regex)
| Alt (r1 r2 : regex)
| Group (r : regex)
| Repeat (r : regex) (min : nat) (max : option nat) (greedy : bool).

(** SyntaxCharacter of the grammar; also the class of the escaping
    replace in index.js: [/[.*+?^${}()|[\]\\]/g]. *)
Definition syntax_characters : str := ".*+?^${}()|[]\".

Open Scope char_scope.

Definition is_syntax_character (c : ascii) : bool := mem_char c syntax_characters.

Definition is_alnum (c : ascii) : bool :=
  let n := nat_of_ascii c in
  (((48 <=? n) && (n <=? 57)) || ((65 <=? n) && (n <=? 90))
   || ((97 <=? n) && (n <=? 122)))%nat.

(** The text after an opening brace, when it is a braced quantifier:
    [n}], [n,}] or [n,m}]. *)
Definition braced (s : str) : option (nat * option nat * str) :=
  match read_nat s with
  | Some (n, "}" :: rest) => Some (n, Some n, rest)
  | Some (n, "," :: s') =>
      match read_nat s' with
      | Some (m, "}" :: rest) => Some (n, Some m, rest)
      | Some _ => None
      | None =>
          match s' with
          | "}" :: rest => Some (n, None, rest)
          | _ => None
          end
      end
  | _ => None
  end.

(** QuantifierPrefix, then the optional [?] that makes it lazy. *)
Definition quantifier_prefix (s : str) : option (nat * option nat * str) :=
  match s with
  | "*" :: rest => Some (0, None, rest)
  | "+" :: rest => Some (1, None, rest)
  | "?" :: rest => Some (0, Some 1, rest)
  | "{" :: s' => braced s'
  | _ => None
  end.

Definition out_of_order (min : nat) (max : option nat) : bool :=
  match max with
  | Some m => (m <? min)%nat
  | None => false
  end.

(** Why the parser refuses a pattern: the reasons the engine gives at the
    end of the message of its SyntaxError.  The last four stand for what the
    fragment leaves out. *)
Inductive rejection : Type :=
| nothing_to_repeat          (* a quantifier with no atom before it *)
| numbers_out_of_order       (* [{n,m}] with m below n *)
| backslash_at_end
| unterminated_group
| unmatched_parenthesis
| invalid_group              (* [(?] *)
| invalid_escape             (* a backslash before a letter or a digit *)
| unterminated_class         (* [[] *)
| too_large.                 (* the parser is out of fuel *)

Inductive parsed : Type :=
| Parsed (r : regex) (rest : str)
| Rejected (why : rejection).

(** The reason for a character that starts no atom. *)
Definition no_atom (c : ascii) : rejection :=
  if Ascii.eqb c "[" then unterminated_class
  else if Ascii.eqb c ")" then unmatched_parenthesis
  else nothing_to_repeat.

Definition parse_quantifier (a : regex) (s : str) : parsed :=
  match quantifier_prefix s with
  | None => Parsed a s
  | Some (min, max, rest) =>
      if out_of_order min max then Rejected numbers_out_of_order
      else
        match rest with
        | "?" :: rest' => Parsed (Repeat a min max false) rest'
        | _ => Parsed (Repeat a min max true) rest
        end
  end.

Fixpoint parse_disjunction (fuel : nat) (s : str) {struct fuel} : parsed :=
  match fuel with
  | 0 => Rejected too_large
  | S fuel' =>
      match parse_alternative fuel' s with
      | Parsed a ("|" :: rest) =>
          match parse_disjunction fuel' rest with
          | Parsed d rest' => Parsed (Alt a d) rest'
          | Rejected why => Rejected why
          end
      | r => r
      end
  end

with parse_alternative (fuel : nat) (s : str) {struct fuel} : parsed :=
  match fuel with
  | 0 => Rejected too_large
  | S fuel' =>
      match s with
      | [] => Parsed Empty s
      | "|" :: _ => Parsed Empty s
      | ")" :: _ => Parsed Empty s
      | _ =>
          match parse_term fuel' s with
          | Parsed t rest =>
              match parse_alternative fuel' rest with
              | Parsed a rest' => Parsed (Seq t a) rest'
              | Rejected why => Rejected why
              end
          | Rejected why => Rejected why
          end
      end
  end

with parse_term (fuel : nat) (s : str) {struct fuel} : parsed :=
  match fuel with
  | 0 => Rejected too_large
  | S fuel' =>
      match s with
      | "^" :: rest => Parsed Bol rest
      | "$" :: rest => Parsed Eol rest
      | _ =>
          match parse_atom fuel' s with
          | Parsed a rest => parse_quantifier a rest
          | Rejected why => Rejected why
          end
      end
  end

with parse_atom (fuel : nat) (s : str) {struct fuel} : parsed :=
  match fuel with
  | 0 => Rejected too_large
  | S fuel' =>
      match s with
      | [] => Rejected unterminated_group      (* not reached: a term is not empty *)
      | "." :: rest => Parsed Dot rest
      | "\" :: c :: rest =>
          if is_alnum c then Rejected invalid_escape else Parsed (Char c) rest
      | "\" :: [] => Rejected backslash_at_end
      | "(" :: "?" :: _ => Rejected invalid_group
      | "(" :: rest =>
          match parse_disjunction fuel' rest with
          | Parsed d (")" :: rest') => Parsed (Group d) rest'
          | Parsed _ _ => Rejected unterminated_group
          | Rejected why => Rejected why
          end
      | "{" :: rest =>
          match braced rest with
          | Some _ => Rejected nothing_to_repeat
          | None => Parsed (Char "{") rest
          end
      | c :: rest =>
          if mem_char c "*+?)|["%string then Rejected (no_atom c)
          else Parsed (Char c) rest
      end
  end.

(** The parse of a whole pattern; a [)] that is left over closes no group. *)
Definition parse_pattern (pattern : str) : parsed :=
  match parse_disjunction (4 * List.length pattern + 4) pattern with
  | Parsed r (_ :: _) => Rejected unmatched_parenthesis
  | r => r
  end.

(** [RegExp(pattern)]: [None] stands for the SyntaxError the constructor
    throws (or for a pattern outside the fragment). *)
Definition RegExp (pattern : str) : option regex :=
  match parse_pattern pattern with
  | Parsed r _ => Some r
  | Rejected _ => None
  end.

(** ** Matching

    The backtracking semantics of the language specification: a matcher
    takes the current state and a continuation and answers the end state of
    the first successful way through, or [None]. *)

Record MatchState : Type := mkState {
  endIndex : nat;      (* characters consumed so far *)
  remaining : str      (* the input from endIndex on *)
}.

Definition MatcherContinuation := MatchState -> option MatchState.
Definition Matcher := MatchState -> MatcherContinuation -> option MatchState.

(** LineTerminator among 8-bit characters: LF and CR. *)
Definition is_line_terminator (c : ascii) : bool :=
  Ascii.eqb c "010" || Ascii.eqb c "013".

Definition CharacterMatcher (ok : ascii -> bool) : Matcher :=
  fun x c =>
    match remaining x with
    | a :: t => if ok a then c (mkState (S (endIndex x)) t) else None
    | [] => None
    end.

(** RepeatMatcher.  Each round either lowers [min] or, once [min] is 0,
    has to consume a character, so [min + length (remaining x) + 1] rounds
    are all a run can take; [fuel] is that budget. *)
Fixpoint RepeatMatcher (m : Matcher) (fuel : nat) (min : nat) (max : option nat)
    (greedy : bool) (x : MatchState) (c : MatcherContinuation) {struct fuel}
    : option MatchState :=
  match fuel with
  | 0 => None
  | S fuel' =>
      match max with
      | Some 0 => c x
      | _ =>
          let d : MatcherContinuation := fun y =>
            if ((min =? 0) && (endIndex y =? endIndex x))%nat then None
            else RepeatMatcher m fuel' (pred min) (option_map pred max) greedy y c in
          if negb (min =? 0)%nat then m x d
          else if negb greedy then
            match c x with
            | Some z => Some z
            | None => m x d
            end
          else
            match m x d with
            | Some z => Some z
            | None => c x
            end
      end
  end.

Fixpoint CompileSubpattern (r : regex) : Matcher :=
  match r with
  | Empty => fun x c => c x
  | Char ch => CharacterMatcher (fun a => Ascii.eqb a ch)
  | Dot => CharacterMatcher (fun a => negb (is_line_terminator a))
  | Bol => fun x c => if (endIndex x =? 0)%nat then c x else None
  | Eol => fun x c => match remaining x with [] => c x | _ => None end
  | Seq r1 r2 =>
      fun x c => CompileSubpattern r1 x (fun y => CompileSubpattern r2 y c)
  | Alt r1 r2 =>
      fun x c =>
        match CompileSubpattern r1 x c with
        | Some z => Some z
        | None => CompileSubpattern r2 x c
        end
  | Group r1 => CompileSubpattern r1
  | Repeat r1 min max greedy =>
      fun x c =>
        RepeatMatcher (CompileSubpattern r1) (min + List.length (remaining x) + 1)
          min max greedy x c
  end.

(** One attempt at the position of [x]. *)
Definition match_at (r : regex) (x : MatchState) : option MatchState :=
  CompileSubpattern r x (fun y => Some y).

(** RegExpBuiltinExec: the first position from [i] on at which the pattern
    matches, with the end state of the match. *)
Fixpoint exec_from (r : regex) (i : nat) (s : str) : option (nat * MatchState) :=
  match match_at r (mkState i s) with
  | Some e => Some (i, e)
  | None =>
      match s with
      | [] => None
      | _ :: t => exec_from r (S i) t
      end
  end.

(** Whether the pattern matches somewhere in [s], which starts at index [i]. *)
Definition found (r : regex) (i : nat) (s : str) : bool :=
  match exec_from r i s with
  | Some _ => true
  | None => false
  end.

(** [RegExp.prototype.test] of a pattern without flags. *)
Definition test (r : regex) (s : str) : bool := found r 0 s.

(** The loop of [String.prototype.match] for a pattern with the [g] flag:
    exec from lastIndex, collect the matched text, go on from the end of the
    match (one further after an empty match). *)
Fixpoint match_loop (r : regex) (fuel : nat) (i : nat) (s : str) : list str :=
  match fuel with
  | 0 => []
  | S fuel' =>
      match exec_from r i s with
      | None => []
      | Some (b, e) =>
          firstn (endIndex e - b) (skipn (b - i) s) ::
          (if (endIndex e =? b)%nat then
             match remaining e with
             | [] => []
             | _ :: t => match_loop r fuel' (S (endIndex e)) t
             end
           else match_loop r fuel' (endIndex e) (remaining e))
      end
  end.

(** [s.match(r)] with the [g] flag: the array of matches, or null ([None])
    when there is none. *)
Definition String_match_g (r : regex) (s : str) : option (list str) :=
  match match_loop r (S (List.length s)) 0 s with
  | [] => None
  | l => Some l
  end.

Close Scope char_scope.

(** [s.replace(/[.*+?^${}()|[\]\\]/g, '\\$&')]: every syntax character gets
    a backslash in front of it. *)
Definition escape_syntax_characters (s : str) : str :=
  flat_map (fun c => if is_syntax_character c then ["\"%char; c] else [c]) s.

(** [hay.includes(needle)]: plain search for a literal run of characters,
    the yardstick the regular-expression tests are compared with. *)
Fixpoint includes (hay needle : str) : bool :=
  match strip_prefix needle hay with
  | Some _ => true
  | None =>
      match hay with
      | [] => false
      | _ :: t => includes t needle
      end
  end.

(** ** [Buffer.prototype.toString('base64')] *)

Definition base64_alphabet : str :=
  "ABCDEFGHIJKLMNOPQRSTUVWXYZabcdefghijklmnopqrstuvwxyz0123456789+/".

Definition sextet (n : N) : ascii :=
  nth (N.to_nat (n mod 64)) base64_alphabet "="%char.

Fixpoint base64_encode (l : list Byte.byte) : str :=
  match l with
  | [] => []
  | [a] =>
      let n := (Byte.to_N a * 65536)%N in
      [sextet (n / 262144); sextet (n / 4096); "="%char; "="%char]
  | [a; b] =>
      let n := (Byte.to_N a * 65536 + Byte.to_N b * 256)%N in
      [sextet (n / 262144); sextet (n / 4096); sextet (n / 64); "="%char]
  | a :: b :: c :: t =>
      let n := (Byte.to_N a * 65536 + Byte.to_N b * 256 + Byte.to_N c)%N in
      sextet (n / 262144) :: sextet (n / 4096) :: sextet (n / 64) :: sextet n
        :: base64_encode t
  end.

Definition is_base64 (s : str) : Prop :=
  Forall (fun c => In c base64_alphabet \/ c = "="%char) s.

(** * The world of the script

    What [fs], [console] and [process] give the script: the tree of input
    files (paths that [statSync], [readdirSync] and [readFileSync] resolve),
    the two files the script owns in its working directory, and the console.
    The tree is the file system apart from store.db and logs.log: input paths
    are taken not to name these two files, nor a directory that lists them,
    so that what a run writes is not among what it, or a later run, reads as
    images.  Statements about two runs say so where they need the second run
    to read what the first has read. *)

Inductive error : Type :=
| JSError (name message : str).

Definition error_toString (e : error) : str :=
  match e with
  | JSError name message => name +++ ": " +++ message
  end.

Inductive node : Type :=
| File (content : list Byte.byte)
| Directory (items : list str)
| Special.                       (* neither isFile() nor isDirectory() *)

Inductive console_entry : Type :=
| console_info (s : str)
| console_error (e : error).

Record world : Type := mkWorld {
  tree : str -> option node;
  store_db : option str;         (* None: the file does not exist *)
  store_writable : bool;         (* may store.db be created and appended to *)
  logs_log : str;
  logs_writable : bool;
  console : list console_entry
}.

(** Where [process.exit] was called: in [exit], in [help], or in code the
    runtime evaluated for a command word. *)
Inductive exit_site : Type := in_exit | in_help | in_evaluated_code.

Inductive result (A : Type) : Type :=
| Ret (a : A)
| Throw (e : error)
| Halt (site : exit_site) (status : nat).   (* process.exit(status) *)

Arguments Ret {A} a.
Arguments Throw {A} e.
Arguments Halt {A} site status.

Definition M (A : Type) : Type := world -> result A * world.

Definition ret {A} (a : A) : M A := fun w => (Ret a, w).

Definition bind {A B} (m : M A) (f : A -> M B) : M B :=
  fun w =>
    match m w with
    | (Ret a, w') => f a w'
    | (Throw e, w') => (Throw e, w')
    | (Halt s n, w') => (Halt s n, w')
    end.

Notation "x <- m ;; k" := (bind m (fun x => k))
  (at level 61, m at next level, right associativity).
Notation "m ;;; k" := (bind m (fun _ => k))
  (at level 61, right associativity).

Definition lift {A} (r : result A) : M A := fun w => (r, w).

Definition throw {A} (e : error) : M A := lift (Throw e).

(** [try { m } catch (err) { h err }]: process.exit is not an exception. *)
Definition try_catch {A} (m : M A) (h : error -> M A) : M A :=
  fun w =>
    match m w with
    | (Throw e, w') => h e w'
    | r => r
    end.

Definition process_exit {A} (site : exit_site) (status : nat) : M A :=
  lift (Halt site status).

(** The system errors of [fs]; [syscall] is the call that failed: [stat]
    for statSync, [scandir] for readdirSync, [open] for the reads and writes
    of a file. *)
Definition ENOENT (syscall path : str) : error :=
  JSError "Error"
    ("ENOENT: no such file or directory, " +++ syscall +++ " '" +++ path +++ "'").
Definition ENOTDIR (path : str) : error :=
  JSError "Error" ("ENOTDIR: not a directory, scandir '" +++ path +++ "'").
Definition EISDIR : error :=
  JSError "Error" "EISDIR: illegal operation on a directory, read".
Definition EACCES (path : str) : error :=
  JSError "Error" ("EACCES: permission denied, open '" +++ path +++ "'").
Definition double_quote : str := ["034"%char].
Definition ERR_INVALID_ARG_TYPE : error :=
  JSError "TypeError [ERR_INVALID_ARG_TYPE]"
    ("The " +++ double_quote +++ "path" +++ double_quote
     +++ " argument must be of type string or an instance of Buffer or URL."
     +++ " Received undefined").

(** [fs.statSync(path)]; [None] is [undefined], as [args[0]] of no arguments. *)
Definition fs_statSync (path : option str) : M node :=
  fun w =>
    match path with
    | None => (Throw ERR_INVALID_ARG_TYPE, w)
    | Some p =>
        match tree w p with
        | Some n => (Ret n, w)
        | None => (Throw (ENOENT "stat" p), w)
        end
    end.

Definition fs_readdirSync (path : str) : M (list str) :=
  fun w =>
    match tree w path with
    | Some (Directory items) => (Ret items, w)
    | Some _ => (Throw (ENOTDIR path), w)
    | None => (Throw (ENOENT "scandir" path), w)
    end.

Definition fs_readFileSync (path : str) : M (list Byte.byte) :=
  fun w =>
    match tree w path with
    | Some (File content) => (Ret content, w)
    | Some _ => (Throw EISDIR, w)
    | None => (Throw (ENOENT "open" path), w)
    end.

Definition fs_existsSync_store_db : M bool :=
  fun w => (Ret (match store_db w with Some _ => true | None => false end), w).

Definition set_store_db (d : str) (w : world) : world :=
  mkWorld (tree w) (Some d) (store_writable w) (logs_log w) (logs_writable w) (console w).

Definition set_logs_log (l : str) (w : world) : world :=
  mkWorld (tree w) (store_db w) (store_writable w) l (logs_writable w) (console w).

Definition add_console (e : console_entry) (w : world) : world :=
  mkWorld (tree w) (store_db w) (store_writable w) (logs_log w) (logs_writable w)
    (console w ++ [e]).

(** The text of the store; a store that does not exist yet reads as empty
    once the script has created it. *)
Definition store_text (w : world) : str :=
  match store_db w with
  | Some d => d
  | None => []
  end.

Definition fs_readFileSync_store_db : M str :=
  fun w =>
    match store_db w with
    | Some d => (Ret d, w)
    | None => (Throw (ENOENT "open" "store.db"), w)
    end.

Definition fs_writeFileSync_store_db (d : str) : M unit :=
  fun w =>
    if store_writable w then (Ret tt, set_store_db d w)
    else (Throw (EACCES "store.db"), w).

Definition fs_appendFileSync_store_db (d : str) : M unit :=
  fun w =>
    if store_writable w then (Ret tt, set_store_db (store_text w ++ d) w)
    else (Throw (EACCES "store.db"), w).

Definition fs_appendFileSync_logs_log (l : str) : M unit :=
  fun w =>
    if logs_writable w then (Ret tt, set_logs_log (logs_log w ++ l) w)
    else (Throw (EACCES "logs.log"), w).

Definition console_info_ (s : str) : M unit :=
  fun w => (Ret tt, add_console (console_info s) w).

Definition console_error_ (e : error) : M unit :=
  fun w => (Ret tt, add_console (console_error e) w).

(** [l.forEach(x => ...)] whose body updates a variable of the enclosing
    function: the variable is threaded through as [s]. *)
Fixpoint forEach {A S : Type} (body : S -> A -> M S) (l : list A) (s : S) : M S :=
  match l with
  | [] => ret s
  | a :: t => s' <- body s a ;; forEach body t s'
  end.

(** [l.every(cb)]: stops at the first element whose callback answers false.
    The callback may update a variable of its closure ([s]) and may throw. *)
Fixpoint Array_every {A S : Type} (cb : A -> S -> result bool * S)
    (l : list A) (s : S) : result bool * S :=
  match l with
  | [] => (Ret true, s)
  | a :: t =>
      match cb a s with
      | (Ret true, s') => Array_every cb t s'
      | r => r
      end
  end.

(** * index.js *)

Definition LF : str := ["010"%char].

Record Config : Type := mkConfig {
  imageExtensions : str;   (* which image extensions are accepted *)
  partialChunks : nat      (* how many characters a chunk of the base64 has *)
}.

Definition config : Config :=
  {| imageExtensions := "jpg|jpeg|png"; partialChunks := 120 |}.

Definition logLevels : list str := ["INFO" : str; "WARNING" : str; "CRITICAL" : str].

Record ImageFile : Type := mkImageFile {
  filePath : str;
  base64 : str;
  chunks : option (list str)     (* None: null, what match answers without a match *)
}.

(** The end of the message of a SyntaxError, as the engine words it. *)
Definition rejection_text (why : rejection) : str :=
  match why with
  | nothing_to_repeat => "Nothing to repeat"
  | numbers_out_of_order => "numbers out of order in {} quantifier"
  | backslash_at_end => "\ at end of pattern"
  | unterminated_group => "Unterminated group"
  | unmatched_parenthesis => "Unmatched ')'"
  | invalid_group => "Invalid group"
  | invalid_escape => "Invalid escape"
  | unterminated_class => "Unterminated character class"
  | too_large => "Regular expression too large"
  end.

(** The SyntaxError of [RegExp(pattern, flags)]: its message shows the
    pattern between slashes, the flags and the reason. *)
Definition SyntaxError (pattern flags : str) (why : rejection) : error :=
  JSError "SyntaxError"
    ("Invalid regular expression: /" +++ pattern +++ "/" +++ flags +++ ": "
     +++ rejection_text why).

(** [RegExp(pattern, flags)]; the flags the script uses, none and [g], do
    not change what the pattern parses to. *)
Definition new_RegExp_flags (pattern flags : str) : result regex :=
  match parse_pattern pattern with
  | Parsed r _ => Ret r
  | Rejected why => Throw (SyntaxError pattern flags why)
  end.

(** [RegExp(pattern)] *)
Definition new_RegExp (pattern : str) : result regex := new_RegExp_flags pattern [].

Definition null_every : error :=
  JSError "TypeError" "Cannot read properties of null (reading 'every')".
Definition not_a_function (what : str) : error :=
  JSError "TypeError" (what +++ " is not a function").
Definition not_defined (what : str) : error :=
  JSError "ReferenceError" (what +++ " is not defined").
Definition class_without_new (what : str) : error :=
  JSError "TypeError"
    ("Class constructor " +++ what +++ " cannot be invoked without 'new'").

(** [RegExp(s.replace(/[.*+?^${}()|[\]\\]/g, '\\$&')).test(data)], the
    expression both matching methods are built from. *)
Definition escaped_test (s data : str) : result bool :=
  match new_RegExp (escape_syntax_characters s) with
  | Ret r => Ret (test r data)
  | Throw e => Throw e
  | Halt site n => Halt site n
  end.

(** The callback of [every] in chunksExistInData; [exists_] is the variable
    [exists] of the method. *)
Definition chunk_callback (data : str) (chunk : str) (exists_ : bool)
    : result bool * bool :=
  match escaped_test chunk data with
  | Ret checkChunk => if checkChunk then (Ret false, true) else (Ret true, exists_)
  | Throw e => (Throw e, exists_)
  | Halt site n => (Halt site n, exists_)
  end.

(** [chunksExistInData(data)]: [every] over [this.chunks], which throws when
    the chunks are null. *)
Definition chunksExistInData (this : ImageFile) (data : str) : result bool :=
  match chunks this with
  | None => Throw null_every
  | Some l =>
      match Array_every (chunk_callback data) l false with
      | (Ret _, exists_) => Ret exists_
      | (Throw e, _) => Throw e
      | (Halt site n, _) => Halt site n
      end
  end.

(** [existsInData(data)] *)
Definition existsInData (this : ImageFile) (data : str) : result bool :=
  escaped_test (base64 this) data.

(** [log(message, level, err)]: a failure to append to logs.log is caught
    and printed. *)
Definition log (message : str) (level : nat) (err : option error) : M unit :=
  let logMessage := nth level logLevels ("undefined" : str) +++ " " +++ message in
  let logMessage :=
    match err with
    | Some e => logMessage +++ LF +++ error_toString e
    | None => logMessage
    end in
  try_catch
    (console_info_ logMessage ;;; fs_appendFileSync_logs_log (logMessage +++ LF))
    (fun err => console_error_ err).

(** [exit(message, level, err)], the exit routine. *)
Definition exit {A} (message : str) (level : nat) (err : option error) : M A :=
  log message level err ;;;
  log "Exiting..." 0 None ;;;
  process_exit in_exit 1.

Definition help_flag : str :=
  "The flag command will flag either an individual image or directory of images."
  +++ LF +++ LF +++ "ex: node index.js flag images/anvil-partial.png".

Definition help_check : str :=
  "The check command will check an image, or directory of images. it includes the"
  +++ LF +++ "optional parameter --partial, which will break up the base64 into chunks."
  +++ LF +++ LF +++ "ex: node index.js check images/anvil-partial.png".

Definition help_general : str :=
  "Welcome to the image checker tool. This tool will check the base64 of an image"
  +++ LF +++ "against store of base64 strings. Images can be flagged by directory, and checked"
  +++ LF +++ "by directory." +++ LF +++ LF
  +++ "Commands:" +++ LF
  +++ "flag image|dir - flags an image or dir and stores it into the store.db" +++ LF
  +++ "check image|dir [...options] - checks an image or dir against the store.db"
  +++ LF +++ LF +++ "Options:" +++ LF
  +++ "--partial - chunks image(s) base64 and checks each chunk against the store.db".

(** [help()]; [argv2] is [process.argv[2]]. *)
Definition help {A} (argv2 : option str) : M A :=
  console_info_
    (match argv2 with
     | Some c =>
         if str_eqb c "flag" then help_flag
         else if str_eqb c "check" then help_check
         else if str_eqb c "--help" then help_general
         else "Command is not found." : str
     | None => "Command is not found." : str
     end) ;;;
  process_exit in_help 1.

Section Runtime.

(** What the runtime does when [eval] is handed a command word that is not
    one of the names of the script and the result is called with the other
    words: anything JavaScript can do to the files and the console, and any
    way to come back or to end. *)
Variable evaluated : str -> list str -> M unit.

Section Script.

Variable cfg : Config.

(** [helpers.checkFileExtension] *)
Definition checkFileExtension (string : str) : result bool :=
  match new_RegExp (imageExtensions cfg) with
  | Ret r => Ret (test r string)
  | Throw e => Throw e
  | Halt site n => Halt site n
  end.

(** [validate(file)] *)
Definition validate (file : str) : result bool :=
  match checkFileExtension file with
  | Ret b => if negb b then Ret false else Ret true
  | r => r
  end.

(** The chunk pattern of the constructor: [`.{1,${config.partialChunks}}`]. *)
Definition chunk_pattern : str :=
  ".{1," +++ Number_toString (partialChunks cfg) +++ "}".

(** [new ImageFile(filePath)] *)
Definition new_ImageFile (filePath : str) : M ImageFile :=
  content <- fs_readFileSync filePath ;;
  let base64 := base64_encode content in
  r <- lift (new_RegExp_flags chunk_pattern "g") ;;
  ret (mkImageFile filePath base64 (String_match_g r base64)).

Record Stats : Type := mkStats { tally : nat; total : nat }.

Definition bump (stats : Stats) : Stats := mkStats (S (tally stats)) (total stats).

(** [preload(args)]; the array [files] that the two blocks push to is
    threaded from the first to the second. *)
Definition preload (args : list str) : M (list ImageFile * Stats * str) :=
  arg <- fs_statSync (hd_error args) ;;
  let args0 := hd [] args in
  files <-
    match arg with
    | Directory _ =>
        items <- fs_readdirSync args0 ;;
        forEach (fun files item =>
                   let filePath := args0 +++ "/" +++ item in
                   ok <- lift (validate filePath) ;;
                   if ok then f <- new_ImageFile filePath ;; ret (files ++ [f])
                   else ret files)
                items []
    | _ => ret []
    end ;;
  files <-
    match arg with
    | File _ =>
        ok <- lift (validate args0) ;;
        if ok then file <- new_ImageFile args0 ;; ret (files ++ [file])
        else ret files
    | _ => ret files
    end ;;
  (if (List.length files =? 0)%nat
   then exit "No files with accepted extensions found" 1 None
   else ret tt) ;;;
  let stats := mkStats 0 (List.length files) in
  data <- fs_readFileSync_store_db ;;
  ret (files, stats, data).

(** [store(file, data)]; the template of its first message prints the
    object [file] itself. *)
Definition store (file : ImageFile) (data : str) : M bool :=
  already <- lift (existsInData file data) ;;
  if already then
    log "File has already been added to data store: [object Object]" 1 None ;;;
    ret false
  else
    try_catch
      (fs_appendFileSync_store_db (base64 file +++ LF) ;;;
       log ("File flagged: " +++ filePath file) 0 None ;;;
       ret true)
      (fun err => exit ("Error storing file: " +++ filePath file) 2 (Some err)).

(** The body of [files.forEach] in flag: one image against the store text
    [data] that preload has read; [stats] carries the tally. *)
Definition flag_file (data : str) (stats : Stats) (file : ImageFile) : M Stats :=
  exists_ <- lift (existsInData file data) ;;
  if negb exists_ then
    save <- store file data ;;
    ret (if save then bump stats else stats)
  else
    log ("File already exists in data store: " +++ filePath file) 0 None ;;;
    ret stats.

(** [flag(args)] *)
Definition flag {A} (args : list str) : M A :=
  p <- preload args ;;
  let '(files, stats, data) := p in
  stats <- forEach (flag_file data) files stats ;;
  exit ("Flag complete. Added " +++ Number_toString (tally stats) +++ "/"
        +++ Number_toString (total stats) +++ " file(s).") 0 None.

(** The body of [files.forEach] in check. *)
Definition check_file (args : list str) (data : str) (stats : Stats) (file : ImageFile)
    : M Stats :=
  chunkExists <-
    (if existsb (str_eqb "--partial") args
     then lift (chunksExistInData file data)
     else ret false) ;;
  found <- lift (existsInData file data) ;;
  if found || chunkExists then
    log ("File found in data store: " +++ filePath file) 0 None ;;;
    ret (bump stats)
  else
    log ("Did not find file in data store: " +++ filePath file) 0 None ;;;
    ret stats.

(** [check(args)] *)
Definition check {A} (args : list str) : M A :=
  p <- preload args ;;
  let '(files, stats, data) := p in
  stats <- forEach (check_file args data) files stats ;;
  exit ("Check complete. Found " +++ Number_toString (tally stats) +++ "/"
        +++ Number_toString (total stats) +++ " file(s) matching in data store.") 0 None.

(** [eval(process.argv[2])(process.argv.slice(3))].  A command word that
    is one of the names index.js declares evaluates to what the script has
    bound to it: one of its functions, which is called with the array of the
    other words (an array prints as its elements joined by commas), the class
    ImageFile, which cannot be called without [new], or a value that is no
    function.  Every other word, a built-in such as [String], an expression
    such as [helpers.checkFileExtension], a name with a blank before it, an
    arrow function, a name that is not bound, is for the runtime to
    evaluate: [evaluated]. *)
Definition eval_call (command : str) (args : list str) : M unit :=
  if str_eqb command "flag" then flag args
  else if str_eqb command "check" then check args
  else if str_eqb command "help" then help (Some command)
  else if str_eqb command "exit" then exit (join "," args) 0 None
  else if str_eqb command "log" then log (join "," args) 0 None
  else if str_eqb command "validate" then
    _ <- lift (validate (join "," args)) ;; ret tt
  else if str_eqb command "preload" then _ <- preload args ;; ret tt
  else if str_eqb command "store" then throw (not_a_function "file.existsInData")
  else if str_eqb command "ImageFile" then throw (class_without_new "ImageFile")
  else if existsb (str_eqb command)
            ["config" : str; "logLevels" : str; "helpers" : str; "fs" : str]
  then throw (not_a_function ("eval(...)" : str))
  else evaluated command args.

(** The script from top to bottom; [argv] is [process.argv.slice(2)], the
    words after the paths of node and of the script. *)
Definition main (argv : list str) : M unit :=
  (if (List.length argv =? 0)%nat
   then exit "Command missing. Use --help to view current commands." 2 None
   else ret tt) ;;;
  (if existsb (str_eqb "--help") argv then help (hd_error argv) else ret tt) ;;;
  present <- fs_existsSync_store_db ;;
  (if negb present then fs_writeFileSync_store_db [] else ret tt) ;;;
  try_catch
    (eval_call (hd [] argv) (tl argv))
    (fun err => exit ("Command not found: " +++ hd [] argv) 2 (Some err)).

End Script.

(** How the process ends. *)
Inductive termination : Type :=
| Exited (site : exit_site) (status : nat)   (* process.exit *)
| Uncaught (e : error)                       (* an exception nobody caught *)
| EndOfScript.                               (* the script ran to its end *)


(** [node index.js argv...] *)
Definition run (cfg : Config) (argv : list str) (w : world) : termination * world :=
  match main cfg argv w with
  | (Ret _, w') => (EndOfScript, w')
  | (Throw e, w') => (Uncaught e, w')
  | (Halt site status, w') => (Exited site status, w')
  end.

(** * Notions the statements are written with *)

(** The pattern that asks for the characters of [s], one after the other. *)
Fixpoint literal (s : str) : regex :=
  match s with
  | [] => Empty
  | c :: t => Seq (Char c) (literal t)
  end.

(** The first elements of [l] up to and including the first that satisfies [p]. *)
Fixpoint upto_first {A : Type} (p : A -> bool) (l : list A) : list A :=
  match l with
  | [] => []
  | a :: t => a :: if p a then [] else upto_first p t
  end.

(** [s] does not go on with a digit. *)
Definition no_digit_ahead (s : str) : Prop :=
  match s with
  | c :: _ => digit_of c = None
  | [] => True
  end.

(** What the chunk pattern [.{1,n}] parses to. *)
Definition chunk_regex (n : nat) : regex := Seq (Repeat Dot 1 (Some n) true) Empty.

(** Texts [.] can run over from end to end; base64 text is one. *)
Definition no_line_terminator (s : str) : Prop :=
  Forall (fun c => is_line_terminator c = false) s.

(** Cutting a text into pieces of [n] characters, the last one shorter when
    the length is not a multiple of [n]: what the Chunker is to produce. *)
Fixpoint slices (fuel n : nat) (s : str) : list str :=
  match fuel with
  | 0 => []
  | S fuel' =>
      match s with
      | [] => []
      | _ :: _ => firstn n s :: slices fuel' n (skipn n s)
      end
  end.

(** The line [log] prints and appends. *)
Definition log_line (message : str) (level : nat) (err : option error) : str :=
  match err with
  | Some e =>
      (nth level logLevels ("undefined" : str) +++ " " +++ message)
      +++ LF +++ error_toString e
  | None => nth level logLevels ("undefined" : str) +++ " " +++ message
  end.

(** The world after a call of [log] that prints [line]. *)
Definition logged (line : str) (w : world) : world :=
  if logs_writable w then
    set_logs_log (logs_log w ++ line ++ LF) (add_console (console_info line) w)
  else
    add_console (console_error (EACCES "logs.log")) (add_console (console_info line) w).

(** The last line [exit] logs. *)
Definition exiting : str := log_line "Exiting..." 0 None.

(** The part [f] of the world is the same after [m] as before, however [m]
    ends. *)
Definition preserves {A B : Type} (f : world -> B) (m : M A) : Prop :=
  forall w, f (snd (m w)) = f w.

(** A small working directory: one image, a directory with two files of
    the same three bytes, a file of no bytes and a text file; an empty
    store.db. *)
Definition sample_tree (path : str) : option node :=
  if str_eqb path "imgA.png" then Some (File [Byte.x00; Byte.x10; Byte.x83])
  else if str_eqb path "imgs" then Some (Directory ["a.png" : str; "b.png" : str])
  else if str_eqb path "imgs/a.png" then Some (File [Byte.x00; Byte.x10; Byte.x83])
  else if str_eqb path "imgs/b.png" then Some (File [Byte.x00; Byte.x10; Byte.x83])
  else if str_eqb path "empty.png" then Some (File [])
  else if str_eqb path "notes.png.txt" then Some (File [Byte.x68; Byte.x69])
  else None.

Definition sample_world : world := mkWorld sample_tree (Some []) true [] true [].

(** [m] calls process.exit nowhere but in [exit]. *)
Definition halts_only_in_exit {A : Type} (m : M A) : Prop :=
  forall w,
    match fst (m w) with
    | Halt site n => site = in_exit /\ n = 1
    | _ => True
    end.



(** A result of a method that does not end the process. *)
Definition no_Halt {A : Type} (r : result A) : Prop :=
  match r with
  | Halt _ _ => False
  | _ => True
  end.




(** The lines of the store: the pieces between newlines. *)
Fixpoint split_lines (current : str) (s : str) : list str :=
  match s with
  | [] => match current with [] => [] | _ :: _ => [current] end
  | c :: t =>
      if Ascii.eqb c "010" then current :: split_lines [] t
      else split_lines (current ++ [c]) t
  end.

(** The entries of store.db, one per line. *)
Definition store_lines (w : world) : list str := split_lines [] (store_text w).

(** Whatever [m] does, the world it leaves is one that [R] relates to the
    world it found. *)
Definition keeps {A : Type} (R : world -> world -> Prop) (m : M A) : Prop :=
  forall w, R w (snd (m w)).

(** The text of the store has only been added to at its end. *)
Definition store_grown (w w' : world) : Prop :=
  exists more : str, store_text w' = store_text w ++ more.

(** logs.log has only been added to at its end. *)
Definition logs_grown (w w' : world) : Prop :=
  exists more : str, logs_log w' = logs_log w ++ more.

(** A store that cannot be written stays exactly as it is. *)
Definition store_locked (w w' : world) : Prop :=
  store_writable w = false ->
  store_db w' = store_db w /\ store_writable w' = false.

(** What the constructor of ImageFile answers for [path], read off the tree:
    the world is not changed by it. *)
Definition read_image (cfg : Config) (tree : str -> option node) (path : str)
    : result ImageFile :=
  match tree path with
  | Some (File content) =>
      match new_RegExp_flags (chunk_pattern cfg) "g" with
      | Ret r =>
          Ret (mkImageFile path (base64_encode content)
                 (String_match_g r (base64_encode content)))
      | Throw e => Throw e
      | Halt site n => Halt site n
      end
  | Some _ => Throw EISDIR
  | None => Throw (ENOENT "open" path)
  end.

(** The images preload collects from the entries [items] of the directory
    [dir], after those in [files]: every entry whose path validates, in the
    order of the listing; the first entry that cannot be validated or read
    ends the collection with its exception. *)
Fixpoint collect (cfg : Config) (tree : str -> option node) (dir : str)
    (items : list str) (files : list ImageFile) : result (list ImageFile) :=
  match items with
  | [] => Ret files
  | item :: rest =>
      match validate cfg (dir +++ "/" +++ item) with
      | Ret true =>
          match read_image cfg tree (dir +++ "/" +++ item) with
          | Ret f => collect cfg tree dir rest (files ++ [f])
          | Throw e => Throw e
          | Halt site n => Halt site n
          end
      | Ret false => collect cfg tree dir rest files
      | Throw e => Throw e
      | Halt site n => Halt site n
      end
  end.

(** The array [files] of preload, read off the tree. *)
Definition candidates (cfg : Config) (tree : str -> option node) (args : list str)
    : result (list ImageFile) :=
  match hd_error args with
  | None => Throw ERR_INVALID_ARG_TYPE
  | Some path =>
      match tree path with
      | None => Throw (ENOENT "stat" path)
      | Some (Directory items) => collect cfg tree path items []
      | Some (File _) =>
          match validate cfg path with
          | Ret true =>
              match read_image cfg tree path with
              | Ret f => Ret [f]
              | Throw e => Throw e
              | Halt site n => Halt site n
              end
          | Ret false => Ret []
          | Throw e => Throw e
          | Halt site n => Halt site n
          end
      | Some Special => Ret []
      end
  end.

(** The line preload logs when it has found no file. *)
Definition no_files_line : str :=
  log_line "No files with accepted extensions found" 1 None.

(** The files of a batch that flag stores: those whose base64 text does not
    occur in the store text [data] read before the loop. *)
Definition new_files (data : str) (files : list ImageFile) : list ImageFile :=
  filter (fun f => negb (includes data (base64 f))) files.

(** What flag appends for a file. *)
Definition store_entry (f : ImageFile) : str := base64 f ++ LF.

(** The world after flag's loop over [files] with a store that can be
    written: per file, in order, either the message that it exists or its
    entry appended and the message that it was flagged. *)
Definition flagged_world (data : str) (files : list ImageFile) (w : world) : world :=
  fold_left
    (fun w f =>
       if includes data (base64 f)
       then logged (log_line ("File already exists in data store: " +++ filePath f)
                      0 None) w
       else logged (log_line ("File flagged: " +++ filePath f) 0 None)
              (set_store_db (store_text w ++ store_entry f) w))
    files w.

(** What check decides for a file: the exact test, or with --partial one of
    its chunks. *)
Definition found_in (partial : bool) (data : str) (f : ImageFile) : bool :=
  includes data (base64 f)
  || (partial && match chunks f with
                 | Some l => existsb (includes data) l
                 | None => false
                 end).

(** The world after check's loop over [files]: one message per file. *)
Definition checked_world (partial : bool) (data : str) (files : list ImageFile)
    (w : world) : world :=
  fold_left
    (fun w f =>
       logged (log_line ((if found_in partial data f
                          then "File found in data store: " : str
                          else "Did not find file in data store: " : str)
                         +++ filePath f) 0 None) w)
    files w.

(** The last message of flag and of check. *)
Definition flag_complete (tally total : nat) : str :=
  log_line ("Flag complete. Added " +++ Number_toString tally +++ "/"
            +++ Number_toString total +++ " file(s).") 0 None.

Definition check_complete (tally total : nat) : str :=
  log_line ("Check complete. Found " +++ Number_toString tally +++ "/"
            +++ Number_toString total +++ " file(s) matching in data store.") 0 None.

(** The text help prints, chosen by [process.argv[2]]. *)
Definition help_text (argv2 : option str) : str :=
  match argv2 with
  | Some c =>
      if str_eqb c "flag" then help_flag
      else if str_eqb c "check" then help_check
      else if str_eqb c "--help" then help_general
      else "Command is not found." : str
  | None => "Command is not found." : str
  end.

(** jpg, jpeg or png occurs somewhere in [path]. *)
Definition holds_extension (path : str) : bool :=
  includes path "jpg" || includes path "jpeg" || includes path "png".

(** A store text that is empty or ends with a newline: whole lines only. *)
Definition whole_lines (d : str) : Prop :=
  d = [] \/ exists d', d = d' ++ LF.

(** Two worlds with the same input tree and the same store; logs.log and the
    console may differ. *)
Definition same_files (w w' : world) : Prop :=
  tree w = tree w' /\ store_db w = store_db w' /\
  store_writable w = store_writable w'.

(** [m] ends the same way, and leaves the same tree and store, in any two
    worlds that differ in logs.log and the console only. *)
Definition blind_to_logs {A : Type} (m : M A) : Prop :=
  forall w w', same_files w w' ->
    fst (m w) = fst (m w') /\ same_files (snd (m w)) (snd (m w')).

(** A callback that notes, beside the variable of its closure, every element
    it is handed: run under [every], the notes are the elements [every] has
    called it with, in order. *)
Definition noting {A S : Type} (cb : A -> S -> result bool * S) (a : A)
    (st : S * list A) : result bool * (S * list A) :=
  (fst (cb a (fst st)), (snd (cb a (fst st)), snd st ++ [a])).

(** The names index.js declares: the command words [eval] turns into
    something of the script itself. *)
Definition declared : list str :=
  ["flag" : str; "check" : str; "help" : str; "exit" : str; "log" : str;
   "validate" : str; "preload" : str; "store" : str; "ImageFile" : str;
   "config" : str; "logLevels" : str; "helpers" : str; "fs" : str].

(** A run that stays within the script: it has no command word, or --help
    among its words (both end before [eval]), or a command word the script
    declares. *)
Definition within_script (argv : list str) : bool :=
  match argv with
  | [] => true
  | command :: _ =>
      existsb (str_eqb "--help") argv || existsb (str_eqb command) declared
  end.

(** A runtime in which a word that is not of the script names nothing:
    [eval] throws the ReferenceError. *)
Definition unbound_word (command : str) (args : list str) : M unit :=
  throw (not_defined command).


(** * Facts about text *)

Lemma str_eqb_eq (a b : str) : str_eqb a b = true <-> a = b.
Proof.
  revert b; induction a as [|x a IH]; intros [|y b]; cbn [str_eqb];
    try (split; [discriminate | intros H; inversion H]); [tauto|].
  rewrite andb_true_iff, Ascii.eqb_eq, IH.
  split; [intros [-> ->]; reflexivity | intros H; inversion H; auto].
Qed.

Lemma str_eqb_refl (a : str) : str_eqb a a = true.
Proof. now apply str_eqb_eq. Qed.

Lemma strip_prefix_app (p r : str) : strip_prefix p (p ++ r) = Some r.
Proof.
  induction p as [|a p IH]; simpl; [reflexivity|].
  now rewrite Ascii.eqb_refl.
Qed.

Lemma strip_prefix_Some (p s r : str) : strip_prefix p s = Some r -> s = p ++ r.
Proof.
  revert s; induction p as [|a p IH]; intros s H; simpl in H.
  - now inversion H.
  - destruct s as [|b s]; [discriminate|].
    destruct (Ascii.eqb b a) eqn:E; [|discriminate].
    apply Ascii.eqb_eq in E; subst b.
    simpl; f_equal; auto.
Qed.

Lemma strip_prefix_length (p s r : str) :
  strip_prefix p s = Some r -> List.length s = List.length p + List.length r.
Proof.
  intros H; apply strip_prefix_Some in H; subst s; apply length_app.
Qed.

Lemma substring_of_refl (s : str) : substring_of s s.
Proof. exists [], []; simpl; now rewrite app_nil_r. Qed.

Lemma substring_of_nil (s : str) : substring_of [] s.
Proof. exists [], s; reflexivity. Qed.

Lemma substring_of_app_l (n h pre : str) : substring_of n h -> substring_of n (pre ++ h).
Proof.
  intros (a & b & ->); exists (pre ++ a), b; now rewrite <- app_assoc.
Qed.

Lemma substring_of_app_r (n h post : str) : substring_of n h -> substring_of n (h ++ post).
Proof.
  intros (a & b & ->); exists a, (b ++ post); now rewrite <- !app_assoc.
Qed.

Lemma substring_of_cons (n h : str) (c : ascii) :
  substring_of n (c :: h) <-> strip_prefix n (c :: h) <> None \/ substring_of n h.
Proof.
  split.
  - intros (pre & post & E); destruct pre as [|a pre]; simpl in E.
    + left; rewrite E, strip_prefix_app; discriminate.
    + right; inversion E; subst; now exists pre, post.
  - intros [H | H].
    + destruct (strip_prefix n (c :: h)) as [r|] eqn:E; [|congruence].
      apply strip_prefix_Some in E; exists [], r; exact E.
    + now apply (substring_of_app_l [c]).
Qed.

Lemma includes_spec (hay needle : str) :
  includes hay needle = true <-> substring_of needle hay.
Proof.
  induction hay as [|c hay IH].
  - simpl; destruct needle as [|a n]; simpl.
    + split; [intros _; apply substring_of_nil | reflexivity].
    + split; [discriminate|].
      intros (pre & post & E); destruct pre; discriminate.
  - rewrite substring_of_cons; cbn [includes].
    destruct (strip_prefix needle (c :: hay)) as [r|].
    + split; [left; discriminate | reflexivity].
    + rewrite IH; split; [now right | intros [H|H]; [congruence | exact H]].
Qed.

Lemma includes_nil (hay : str) : includes hay [] = true.
Proof. destruct hay; reflexivity. Qed.

Lemma includes_app_l (pre hay needle : str) :
  includes hay needle = true -> includes (pre ++ hay) needle = true.
Proof. rewrite !includes_spec; apply substring_of_app_l. Qed.

Lemma includes_app_r (hay post needle : str) :
  includes hay needle = true -> includes (hay ++ post) needle = true.
Proof. rewrite !includes_spec; apply substring_of_app_r. Qed.

Lemma includes_self_app (pre needle post : str) :
  includes (pre ++ needle ++ post) needle = true.
Proof. apply includes_spec; now exists pre, post. Qed.

(** * Escaped patterns are literal patterns *)

Ltac each_char c :=
  destruct c as [[] [] [] [] [] [] [] []].

Lemma syntax_character_not_alnum (c : ascii) :
  is_syntax_character c = true -> is_alnum c = false.
Proof. each_char c; intros H; try reflexivity; discriminate H. Qed.

Lemma parse_atom_plain (fuel : nat) (c : ascii) (rest : str) :
  is_syntax_character c = false ->
  parse_atom (S fuel) (c :: rest) = Parsed (Char c) rest.
Proof. each_char c; intros H; try reflexivity; discriminate H. Qed.

Lemma parse_atom_escaped (fuel : nat) (c : ascii) (rest : str) :
  is_syntax_character c = true ->
  parse_atom (S fuel) ("\"%char :: c :: rest) = Parsed (Char c) rest.
Proof.
  intros H; cbn [parse_atom]; now rewrite (syntax_character_not_alnum c H).
Qed.

Lemma parse_term_plain (fuel : nat) (c : ascii) (rest : str) :
  is_syntax_character c = false ->
  parse_term (S fuel) (c :: rest) =
  match parse_atom fuel (c :: rest) with
  | Parsed a rest' => parse_quantifier a rest'
  | Rejected why => Rejected why
  end.
Proof. each_char c; intros H; try reflexivity; discriminate H. Qed.

Lemma parse_alternative_plain (fuel : nat) (c : ascii) (rest : str) :
  is_syntax_character c = false ->
  parse_alternative (S fuel) (c :: rest) =
  match parse_term fuel (c :: rest) with
  | Parsed t rest' =>
      match parse_alternative fuel rest' with
      | Parsed a rest'' => Parsed (Seq t a) rest''
      | Rejected why => Rejected why
      end
  | Rejected why => Rejected why
  end.
Proof. each_char c; intros H; try reflexivity; discriminate H. Qed.

Lemma parse_term_backslash (fuel : nat) (rest : str) :
  parse_term (S fuel) ("\"%char :: rest) =
  match parse_atom fuel ("\"%char :: rest) with
  | Parsed a rest' => parse_quantifier a rest'
  | Rejected why => Rejected why
  end.
Proof. reflexivity. Qed.

Lemma parse_alternative_backslash (fuel : nat) (rest : str) :
  parse_alternative (S fuel) ("\"%char :: rest) =
  match parse_term fuel ("\"%char :: rest) with
  | Parsed t rest' =>
      match parse_alternative fuel rest' with
      | Parsed a rest'' => Parsed (Seq t a) rest''
      | Rejected why => Rejected why
      end
  | Rejected why => Rejected why
  end.
Proof. reflexivity. Qed.

Lemma quantifier_prefix_plain (c : ascii) (rest : str) :
  is_syntax_character c = false -> quantifier_prefix (c :: rest) = None.
Proof. each_char c; intros H; try reflexivity; discriminate H. Qed.

Lemma quantifier_prefix_escaped (s : str) :
  quantifier_prefix (escape_syntax_characters s) = None.
Proof.
  destruct s as [|c s]; [reflexivity|].
  cbn [escape_syntax_characters flat_map].
  destruct (is_syntax_character c) eqn:E; [reflexivity|].
  now apply quantifier_prefix_plain.
Qed.

Lemma parse_quantifier_escaped (a : regex) (s : str) :
  parse_quantifier a (escape_syntax_characters s) = Parsed a (escape_syntax_characters s).
Proof. unfold parse_quantifier; now rewrite quantifier_prefix_escaped. Qed.

Lemma escape_length (s : str) :
  List.length s <= List.length (escape_syntax_characters s).
Proof.
  induction s as [|c s IH]; [reflexivity|].
  cbn [escape_syntax_characters flat_map]; rewrite length_app.
  fold (escape_syntax_characters s).
  destruct (is_syntax_character c); simpl; lia.
Qed.

Lemma parse_alternative_escaped (s : str) (extra : nat) :
  parse_alternative (3 * List.length s + 1 + extra) (escape_syntax_characters s)
  = Parsed (literal s) [].
Proof.
  revert extra; induction s as [|c s IH]; intros extra.
  - reflexivity.
  - replace (3 * List.length (c :: s) + 1 + extra)
      with (S (S (S (3 * List.length s + 1 + extra)))) by (simpl; lia).
    cbn [escape_syntax_characters flat_map].
    fold (escape_syntax_characters s).
    assert (IH' : parse_alternative (S (S (3 * List.length s + 1 + extra)))
                    (escape_syntax_characters s) = Parsed (literal s) []).
    { replace (S (S (3 * List.length s + 1 + extra)))
        with (3 * List.length s + 1 + (extra + 2)) by lia.
      apply IH. }
    destruct (is_syntax_character c) eqn:E.
    + change (["\"%char; c] ++ escape_syntax_characters s)
        with ("\"%char :: c :: escape_syntax_characters s).
      rewrite parse_alternative_backslash, parse_term_backslash.
      rewrite parse_atom_escaped by exact E.
      rewrite parse_quantifier_escaped, IH'.
      reflexivity.
    + change ([c] ++ escape_syntax_characters s)
        with (c :: escape_syntax_characters s).
      rewrite parse_alternative_plain by exact E.
      rewrite parse_term_plain by exact E.
      rewrite parse_atom_plain by exact E.
      rewrite parse_quantifier_escaped, IH'.
      reflexivity.
Qed.

Lemma parse_pattern_escaped (s : str) :
  parse_pattern (escape_syntax_characters s) = Parsed (literal s) [].
Proof.
  unfold parse_pattern.
  pose proof (escape_length s) as L.
  set (e := escape_syntax_characters s) in *.
  replace (4 * List.length e + 4)
    with (S (3 * List.length s + 1 + (4 * List.length e + 2 - 3 * List.length s)))
    by lia.
  cbn [parse_disjunction].
  unfold e; rewrite parse_alternative_escaped.
  reflexivity.
Qed.

Lemma RegExp_escaped (s : str) :
  RegExp (escape_syntax_characters s) = Some (literal s).
Proof. unfold RegExp; now rewrite parse_pattern_escaped. Qed.

Lemma new_RegExp_flags_Some (pattern flags : str) (r : regex) :
  RegExp pattern = Some r -> new_RegExp_flags pattern flags = Ret r.
Proof.
  unfold RegExp, new_RegExp_flags.
  destruct (parse_pattern pattern); [now intros [= ->] | discriminate].
Qed.

Lemma new_RegExp_flags_None (pattern flags : str) :
  RegExp pattern = None ->
  exists why, new_RegExp_flags pattern flags = Throw (SyntaxError pattern flags why).
Proof.
  unfold RegExp, new_RegExp_flags.
  destruct (parse_pattern pattern) as [r rest|why]; [discriminate | eauto].
Qed.

Lemma new_RegExp_escaped (s : str) :
  new_RegExp (escape_syntax_characters s) = Ret (literal s).
Proof. unfold new_RegExp, new_RegExp_flags; now rewrite parse_pattern_escaped. Qed.

(** * Matching a literal pattern is searching for a run of characters *)

Lemma literal_matcher (s : str) (x : MatchState) (c : MatcherContinuation) :
  CompileSubpattern (literal s) x c =
  match strip_prefix s (remaining x) with
  | Some r => c (mkState (endIndex x + List.length s) r)
  | None => None
  end.
Proof.
  revert x; induction s as [|a s IH]; intros [i t]; simpl.
  - now rewrite Nat.add_0_r.
  - unfold CharacterMatcher; simpl.
    destruct t as [|b t]; [reflexivity|].
    destruct (Ascii.eqb b a); [|reflexivity].
    rewrite IH; simpl.
    now rewrite Nat.add_succ_r.
Qed.

Lemma test_literal (s data : str) : test (literal s) data = includes data s.
Proof.
  unfold test, found; generalize 0 as i.
  induction data as [|b t IH]; intros i; cbn [exec_from includes];
    unfold match_at; rewrite literal_matcher; cbn [remaining];
    destruct (strip_prefix s _); try reflexivity.
  apply IH.
Qed.

Lemma escaped_test_includes (s data : str) :
  escaped_test s data = Ret (includes data s).
Proof.
  unfold escaped_test.
  now rewrite new_RegExp_escaped, test_literal.
Qed.

Lemma chunk_callback_includes (data chunk : str) (exists_ : bool) :
  chunk_callback data chunk exists_ =
  if includes data chunk then (Ret false, true) else (Ret true, exists_).
Proof. unfold chunk_callback; now rewrite escaped_test_includes. Qed.

Lemma every_chunk_callback (data : str) (l : list str) (exists_ : bool) :
  exists b : bool,
    Array_every (chunk_callback data) l exists_
    = (Ret b, exists_ || existsb (includes data) l).
Proof.
  revert exists_; induction l as [|c l IH]; intros e; cbn [Array_every existsb].
  - exists true; now rewrite orb_false_r.
  - rewrite chunk_callback_includes.
    destruct (includes data c).
    + exists false; now rewrite orb_true_r.
    + apply IH.
Qed.

(** Noting what it is handed changes nothing of what a callback answers
    and does, under [every] as on its own. *)
Lemma every_noting {A S : Type} (cb : A -> S -> result bool * S) (l : list A)
    (s : S) (seen : list A) :
  fst (Array_every (noting cb) l (s, seen)) = fst (Array_every cb l s) /\
  fst (snd (Array_every (noting cb) l (s, seen))) = snd (Array_every cb l s).
Proof.
  revert s seen; induction l as [|a l IH]; intros s seen; cbn [Array_every];
    [now split|].
  unfold noting at 1 3; cbn [fst snd].
  destruct (cb a s) as [[[]|e|site n] s']; cbn [fst snd]; try (now split).
  apply IH.
Qed.

(** The chunks [every] hands to the callback of chunksExistInData: those
    from the left up to and including the first that occurs in the data. *)
Lemma every_noting_chunk_callback (data : str) (l : list str) (exists_ : bool)
    (seen : list str) :
  Array_every (noting (chunk_callback data)) l (exists_, seen)
  = (Ret (negb (existsb (includes data) l)),
     (exists_ || existsb (includes data) l, seen ++ upto_first (includes data) l)).
Proof.
  revert exists_ seen; induction l as [|c l IH]; intros e seen;
    cbn [Array_every existsb upto_first].
  - now rewrite orb_false_r, app_nil_r.
  - unfold noting at 1; cbn [fst snd].
    rewrite chunk_callback_includes.
    destruct (includes data c); cbn [fst snd orb negb].
    + now rewrite orb_true_r.
    + rewrite IH, <- app_assoc; reflexivity.
Qed.

Lemma upto_first_all {A : Type} (p : A -> bool) (l : list A) :
  existsb p l = false -> upto_first p l = l.
Proof.
  induction l as [|a l IH]; cbn [existsb upto_first]; [reflexivity|].
  destruct (p a); [discriminate|].
  intros H; now rewrite IH.
Qed.

Lemma chunksExistInData_existsb (img : ImageFile) (l : list str) (data : str) :
  chunks img = Some l ->
  chunksExistInData img data = Ret (existsb (includes data) l).
Proof.
  intros E; unfold chunksExistInData; rewrite E.
  destruct (every_chunk_callback data l false) as [b ->].
  reflexivity.
Qed.

(** * The matching methods of ImageFile *)

(** C1.  For every image and every store text, [existsInData] answers true
    exactly when the whole base64 text of the image occurs in the store text
    as a contiguous run of characters.  The pattern it builds from the base64
    text is the literal one: [+] and every other character that means
    something in a pattern stands for itself, so the test is the plain
    search [includes]. *)
Theorem existsInData_is_literal_containment (img : ImageFile) (data : str) :
  new_RegExp (escape_syntax_characters (base64 img)) = Ret (literal (base64 img)) /\
  existsInData img data = Ret (includes data (base64 img)) /\
  (existsInData img data = Ret true <-> substring_of (base64 img) data).
Proof.
  split; [|split].
  - apply new_RegExp_escaped.
  - apply escaped_test_includes.
  - unfold existsInData; rewrite escaped_test_includes, <- includes_spec.
    split; [now inversion 1 | now intros ->].
Qed.

(** A pattern that is not escaped reads [+] as a quantifier: it finds "aab",
    where the text "a+b" does not occur, and misses "a+b" itself.  Escaped,
    the same text is searched for as it is written. *)
Example plus_is_pattern_syntax_unless_escaped :
  option_map (fun r => test r "aab") (RegExp "a+b") = Some true /\
  option_map (fun r => test r "a+b") (RegExp "a+b") = Some false /\
  escaped_test "a+b" "aab" = Ret false /\
  escaped_test "a+b" "xa+bx" = Ret true.
Proof. repeat split; reflexivity. Qed.

(** C2.  For an image whose chunks are the sequence [l] and every store
    text, [chunksExistInData] answers true exactly when at least one chunk
    occurs in the store text as a contiguous run of characters.  The [every]
    of the method, run with the callback of the method made to note what it
    is handed, calls it with the chunks of [l] from the left up to and
    including the first one that occurs, and with no chunk after that one; it
    leaves in [exists] the answer of the method.  The answer false comes only
    after every chunk has been tested. *)
Theorem chunksExistInData_first_matching_chunk
    (img : ImageFile) (l : list str) (data : str) :
  chunks img = Some l ->
  chunksExistInData img data = Ret (existsb (includes data) l) /\
  (chunksExistInData img data = Ret true <->
   exists chunk, In chunk l /\ substring_of chunk data) /\
  Array_every (noting (chunk_callback data)) l (false, [])
  = (Ret (negb (existsb (includes data) l)),
     (existsb (includes data) l, upto_first (includes data) l)) /\
  chunksExistInData img data
  = Ret (fst (snd (Array_every (noting (chunk_callback data)) l (false, [])))) /\
  (chunksExistInData img data = Ret false ->
   snd (snd (Array_every (noting (chunk_callback data)) l (false, []))) = l).
Proof.
  intros E; rewrite (chunksExistInData_existsb img data E).
  rewrite every_noting_chunk_callback; cbn [fst snd orb app].
  repeat split.
  - inversion 1 as [H']; apply existsb_exists in H' as (c & Hin & Hc).
    exists c; split; [exact Hin | now apply includes_spec].
  - intros (c & Hin & Hc); f_equal; apply existsb_exists.
    exists c; split; [exact Hin | now apply includes_spec].
  - inversion 1 as [H']; now apply upto_first_all.
Qed.

Lemma chunksExistInData_first_matching_chunk_witness :
  let img := mkImageFile "imgB.png" "XYZABCD1234QQQ"
               (Some ["XYZA" : str; "BCD1" : str; "234Q" : str; "QQ" : str]) in
  chunksExistInData img "ABCD1234" = Ret true /\
  Array_every (noting (chunk_callback "ABCD1234"))
    ["XYZA" : str; "BCD1" : str; "234Q" : str; "QQ" : str] (false, [])
  = (Ret false, (true, ["XYZA" : str; "BCD1" : str])).
Proof.
  intros img.
  destruct (@chunksExistInData_first_matching_chunk img
              ["XYZA" : str; "BCD1" : str; "234Q" : str; "QQ" : str]
              "ABCD1234" eq_refl) as (H1 & _ & H3 & _).
  split; [exact H1 | exact H3].
Defined.

(** * Numbers printed and read back *)

Lemma read_digits_done (acc : nat) (s : str) :
  no_digit_ahead s -> read_digits acc s = (acc, s).
Proof. destruct s as [|c t]; simpl; [reflexivity | now intros ->]. Qed.

Ltac eval_digit :=
  match goal with
  | |- context [digit_of ?c] =>
      let v := eval vm_compute in (digit_of c) in
      change (digit_of c) with v; cbv iota
  end.

Lemma read_digits_of_uint (d : Decimal.uint) (acc : nat) (rest : str) :
  no_digit_ahead rest ->
  read_digits acc (lit (DecimalString.NilEmpty.string_of_uint d) ++ rest)
  = (Nat.of_uint_acc d acc, rest).
Proof.
  intros Hrest; revert acc; induction d; intros acc;
    cbn [DecimalString.NilEmpty.string_of_uint lit list_ascii_of_string app
         Nat.of_uint_acc];
    try (now apply read_digits_done);
    fold (lit (DecimalString.NilEmpty.string_of_uint d));
    cbn [read_digits]; eval_digit;
    rewrite IHd, Nat.tail_mul_spec; do 2 f_equal; lia.
Qed.

Lemma to_uint_not_Nil (n : nat) : Nat.to_uint n <> Decimal.Nil.
Proof.
  intros E.
  pose proof (DecimalNat.Unsigned.to_of (Nat.to_uint n)) as H.
  rewrite DecimalNat.Unsigned.of_to, E in H.
  discriminate H.
Qed.

Lemma read_nat_Number_toString (n : nat) (rest : str) :
  no_digit_ahead rest ->
  read_nat (Number_toString n ++ rest) = Some (n, rest).
Proof.
  intros Hrest; unfold read_nat, Number_toString.
  pose proof (@read_digits_of_uint (Nat.to_uint n) 0 rest Hrest) as R.
  pose proof (to_uint_not_Nil n) as NN.
  change (Nat.of_uint_acc (Nat.to_uint n) 0) with (Nat.of_uint (Nat.to_uint n)) in R.
  rewrite DecimalNat.Unsigned.of_to in R.
  destruct (Nat.to_uint n); try congruence;
    cbn [DecimalString.NilEmpty.string_of_uint lit list_ascii_of_string app] in *;
    eval_digit; now rewrite R.
Qed.

(** * The chunk pattern *)

Lemma braced_chunk (n : nat) (rest : str) :
  braced ("1"%char :: ","%char :: Number_toString n ++ "}"%char :: rest)
  = Some (1, Some n, rest).
Proof.
  unfold braced.
  cbn [read_nat]; eval_digit.
  cbn [read_digits]; eval_digit; eval_digit.
  now rewrite read_nat_Number_toString.
Qed.

Lemma chunk_pattern_eq (cfg : Config) :
  chunk_pattern cfg
  = "."%char :: "{"%char :: "1"%char :: ","%char
      :: Number_toString (partialChunks cfg) ++ ["}"%char].
Proof.
  unfold chunk_pattern.
  change (lit ".{1,") with ["."%char; "{"%char; "1"%char; ","%char].
  change (lit "}") with ["}"%char].
  reflexivity.
Qed.

Lemma parse_disjunction_S (fuel : nat) (s : str) :
  parse_disjunction (S fuel) s =
  match parse_alternative fuel s with
  | Parsed a ("|"%char :: rest) =>
      match parse_disjunction fuel rest with
      | Parsed d rest' => Parsed (Alt a d) rest'
      | Rejected why => Rejected why
      end
  | r => r
  end.
Proof. reflexivity. Qed.

Lemma parse_alternative_nil (fuel : nat) :
  parse_alternative (S fuel) [] = Parsed Empty [].
Proof. reflexivity. Qed.

Lemma parse_alternative_dot (fuel : nat) (rest : str) :
  parse_alternative (S (S (S fuel))) ("."%char :: rest) =
  match parse_quantifier Dot rest with
  | Parsed t rest' =>
      match parse_alternative (S (S fuel)) rest' with
      | Parsed a rest'' => Parsed (Seq t a) rest''
      | Rejected why => Rejected why
      end
  | Rejected why => Rejected why
  end.
Proof. reflexivity. Qed.

Lemma parse_pattern_chunk_pattern (cfg : Config) :
  1 <= partialChunks cfg ->
  parse_pattern (chunk_pattern cfg) = Parsed (chunk_regex (partialChunks cfg)) [].
Proof.
  intros Hn; unfold parse_pattern.
  rewrite chunk_pattern_eq.
  set (n := partialChunks cfg) in *.
  set (p := _ :: _).
  assert (E : 4 * List.length p + 4 = S (S (S (S (4 * List.length p)))))
    by (clearbody p; lia).
  rewrite E; clear E; subst p.
  rewrite parse_disjunction_S, parse_alternative_dot.
  unfold parse_quantifier, quantifier_prefix.
  rewrite braced_chunk.
  unfold out_of_order.
  destruct (Nat.ltb_spec n 1) as [Hlt|_]; [lia|].
  now rewrite parse_alternative_nil.
Qed.

Lemma RegExp_chunk_pattern (cfg : Config) :
  1 <= partialChunks cfg ->
  RegExp (chunk_pattern cfg) = Some (chunk_regex (partialChunks cfg)).
Proof. intros Hn; unfold RegExp; now rewrite parse_pattern_chunk_pattern. Qed.

Lemma new_RegExp_chunk_pattern (cfg : Config) :
  1 <= partialChunks cfg ->
  new_RegExp_flags (chunk_pattern cfg) "g" = Ret (chunk_regex (partialChunks cfg)).
Proof.
  intros Hn; unfold new_RegExp_flags; now rewrite parse_pattern_chunk_pattern.
Qed.

(** A greedy run of [.] with an upper bound takes as many characters as it
    may: all that is left, or the bound. *)
Lemma repeat_dot_greedy (max fuel i : nat) (s : str) (c : MatcherContinuation) :
  (forall y, c y = Some y) ->
  no_line_terminator s ->
  List.length s < fuel ->
  RepeatMatcher (CompileSubpattern Dot) fuel 0 (Some max) true (mkState i s) c
  = Some (mkState (i + Nat.min max (List.length s))
            (skipn (Nat.min max (List.length s)) s)).
Proof.
  intros Hc; revert fuel i s; induction max as [|max IH]; intros fuel i s Hs Hf;
    (destruct fuel as [|fuel]; [lia|]); cbn [RepeatMatcher].
  - rewrite Hc; cbn [Nat.min skipn]; now rewrite Nat.add_0_r.
  - cbn [Nat.eqb negb andb CompileSubpattern option_map pred].
    unfold CharacterMatcher; cbn [remaining endIndex].
    destruct s as [|a t].
    + rewrite Hc; cbn [List.length Nat.min skipn]; now rewrite Nat.add_0_r.
    + inversion Hs as [|? ? Ha Ht]; subst; rewrite Ha; cbn [negb].
      replace (S i =? i)%nat with false by (symmetry; apply Nat.eqb_neq; lia).
      rewrite IH by (try assumption; simpl in Hf; lia).
      cbn [List.length Nat.min skipn]; now rewrite Nat.add_succ_r.
Qed.

Lemma match_at_chunk_regex (n i : nat) (a : ascii) (t : str) :
  1 <= n ->
  no_line_terminator (a :: t) ->
  match_at (chunk_regex n) (mkState i (a :: t))
  = Some (mkState (i + Nat.min n (S (List.length t)))
            (skipn (Nat.min n (S (List.length t))) (a :: t))).
Proof.
  intros Hn Hs; inversion Hs as [|? ? Ha Ht]; subst.
  destruct n as [|n]; [lia|].
  unfold match_at, chunk_regex; cbn [CompileSubpattern remaining].
  remember (S (S (List.length t))) as fuel eqn:Ef.
  replace (1 + List.length (a :: t) + 1) with (S fuel) by (subst fuel; simpl; lia).
  cbn [RepeatMatcher Nat.eqb negb andb option_map pred].
  unfold CharacterMatcher at 1; cbn [remaining endIndex].
  rewrite Ha; cbn [negb].
  fold (CompileSubpattern Dot).
  rewrite repeat_dot_greedy by (auto; lia).
  cbn [Nat.min skipn List.length]; now rewrite Nat.add_succ_r.
Qed.

Lemma match_at_chunk_regex_nil (n i : nat) :
  1 <= n -> match_at (chunk_regex n) (mkState i []) = None.
Proof.
  intros Hn; destruct n as [|n]; [lia|]; reflexivity.
Qed.

(** * Chunks *)

Lemma firstn_min_length {A : Type} (n : nat) (l : list A) :
  firstn (Nat.min n (List.length l)) l = firstn n l.
Proof.
  destruct (Nat.le_ge_cases n (List.length l)) as [H|H].
  - now rewrite Nat.min_l.
  - rewrite Nat.min_r by exact H.
    now rewrite !firstn_all2 by lia.
Qed.

Lemma skipn_min_length {A : Type} (n : nat) (l : list A) :
  skipn (Nat.min n (List.length l)) l = skipn n l.
Proof.
  destruct (Nat.le_ge_cases n (List.length l)) as [H|H].
  - now rewrite Nat.min_l.
  - rewrite Nat.min_r by exact H.
    now rewrite !skipn_all2 by lia.
Qed.

Lemma no_line_terminator_skipn (n : nat) (s : str) :
  no_line_terminator s -> no_line_terminator (skipn n s).
Proof.
  unfold no_line_terminator; rewrite !Forall_forall.
  intros H c Hc; apply H.
  rewrite <- (firstn_skipn n s); apply in_or_app; now right.
Qed.

Lemma match_loop_chunk_regex (n fuel i : nat) (s : str) :
  1 <= n ->
  no_line_terminator s ->
  List.length s <= fuel ->
  match_loop (chunk_regex n) (S fuel) i s = slices fuel n s.
Proof.
  intros Hn; revert i s; induction fuel as [|fuel IH]; intros i s Hs Hf.
  - destruct s; [|simpl in Hf; lia].
    cbn [match_loop exec_from]; now rewrite match_at_chunk_regex_nil.
  - destruct s as [|a t].
    + cbn [match_loop exec_from]; now rewrite match_at_chunk_regex_nil.
    + remember (S fuel) as fuel1 eqn:Ef.
      cbn [match_loop exec_from].
      rewrite match_at_chunk_regex by assumption.
      cbn [endIndex remaining].
      change (S (List.length t)) with (List.length (a :: t)).
      set (k := Nat.min n (List.length (a :: t))).
      assert (Hk : 1 <= k) by (subst k; simpl; lia).
      replace (i + k - i) with k by lia.
      replace (i - i) with 0 by lia.
      replace (i + k =? i)%nat with false by (symmetry; apply Nat.eqb_neq; lia).
      subst fuel1; cbn [slices skipn].
      unfold k; rewrite firstn_min_length, skipn_min_length.
      f_equal.
      apply IH.
      * now apply no_line_terminator_skipn.
      * rewrite length_skipn; cbn [List.length] in *; lia.
Qed.

Lemma String_match_g_chunk_regex (n : nat) (s : str) :
  1 <= n ->
  no_line_terminator s ->
  String_match_g (chunk_regex n) s =
  match s with
  | [] => None
  | _ :: _ => Some (slices (List.length s) n s)
  end.
Proof.
  intros Hn Hs; unfold String_match_g.
  rewrite match_loop_chunk_regex by auto.
  destruct s; reflexivity.
Qed.

Lemma slices_concat (n fuel : nat) (s : str) :
  1 <= n -> List.length s <= fuel -> List.concat (slices fuel n s) = s.
Proof.
  intros Hn; revert s; induction fuel as [|fuel IH]; intros s Hf.
  - destruct s; [reflexivity | simpl in Hf; lia].
  - destruct s as [|a t]; [reflexivity|].
    cbn [slices List.concat].
    rewrite IH, firstn_skipn; [reflexivity|].
    rewrite length_skipn; cbn [List.length] in *; lia.
Qed.

Lemma slices_length (n fuel : nat) (s : str) :
  1 <= n -> List.length s <= fuel ->
  List.length (slices fuel n s) = (List.length s + n - 1) / n.
Proof.
  intros Hn; revert s; induction fuel as [|fuel IH]; intros s Hf.
  - destruct s; [|simpl in Hf; lia].
    cbn [slices List.length]; symmetry; apply Nat.div_small; lia.
  - destruct s as [|a t].
    + cbn [slices List.length]; symmetry; apply Nat.div_small; lia.
    + cbn [slices].
      set (s := a :: t) in *.
      assert (HL : 1 <= List.length s) by (subst s; simpl; lia).
      change (List.length (firstn n s :: slices fuel n (skipn n s)))
        with (S (List.length (slices fuel n (skipn n s)))).
      rewrite IH by (rewrite length_skipn; lia).
      rewrite length_skipn.
      set (L := List.length s) in *.
      destruct (Nat.le_gt_cases L n) as [Hle|Hgt].
      * replace (L - n + n - 1) with (n - 1) by lia.
        replace (L + n - 1) with ((L - 1) + 1 * n) by lia.
        rewrite Nat.div_add by lia.
        rewrite !Nat.div_small by lia; reflexivity.
      * replace (L + n - 1) with ((L - n + n - 1) + 1 * n) by lia.
        rewrite Nat.div_add by lia; lia.
Qed.

Lemma slices_nonempty (n fuel : nat) (a : ascii) (t : str) :
  slices (S fuel) n (a :: t) <> [].
Proof. discriminate. Qed.

(** All pieces but the last have [n] characters; the last has what is left. *)
Lemma slices_piece_lengths (n fuel : nat) (s : str) :
  1 <= n -> List.length s <= fuel -> s <> [] ->
  Forall (fun piece => List.length piece = n) (removelast (slices fuel n s)) /\
  List.length (last (slices fuel n s) [])
  = List.length s - n * (List.length (slices fuel n s) - 1).
Proof.
  intros Hn; revert s; induction fuel as [|fuel IH]; intros s Hf Hs.
  - destruct s; [congruence | simpl in Hf; lia].
  - destruct s as [|a t]; [congruence|].
    cbn [slices].
    set (s := a :: t) in *.
    assert (Hlen : List.length (skipn n s) = List.length s - n) by apply length_skipn.
    destruct (skipn n s) as [|b r] eqn:Er.
    + assert (List.length s <= n) by (cbn [List.length] in Hlen; lia).
      destruct fuel; cbn [slices removelast last List.length];
        (split; [constructor|]); rewrite firstn_all2 by lia; lia.
    + assert (Hgt : n < List.length s) by (cbn [List.length] in Hlen; lia).
      destruct (IH (b :: r)) as [IH1 IH2];
        [rewrite Hlen; unfold s in *; cbn [List.length] in *; lia | discriminate |].
      destruct fuel as [|fuel]; [cbn [List.length] in Hlen; unfold s in *;
                                 cbn [List.length] in *; lia|].
      pose proof (@slices_nonempty n fuel b r) as NE.
      destruct (slices (S fuel) n (b :: r)) as [|p l] eqn:El; [congruence|].
      split.
      * cbn [removelast]; constructor; [|exact IH1].
        rewrite length_firstn; lia.
      * cbn [last]; cbn [last] in IH2.
        rewrite IH2, Hlen; cbn [List.length].
        replace (S (List.length l) - 1) with (List.length l) by lia.
        replace (S (S (List.length l)) - 1) with (S (List.length l)) by lia.
        rewrite Nat.mul_succ_r; lia.
Qed.

(** * base64 text *)

Lemma sextet_in_alphabet (n : N) : In (sextet n) base64_alphabet.
Proof.
  unfold sextet; apply nth_In.
  change (List.length base64_alphabet) with 64.
  pose proof (N.mod_lt n 64 ltac:(discriminate)) as H.
  lia.
Qed.

Lemma base64_encode_is_base64 (l : list Byte.byte) : is_base64 (base64_encode l).
Proof.
  unfold is_base64.
  assert (H : Forall (fun c => In c base64_alphabet \/ c = "="%char) (base64_encode l)
              /\ (forall a, Forall (fun c => In c base64_alphabet \/ c = "="%char)
                              (base64_encode (a :: l)))
              /\ (forall a b, Forall (fun c => In c base64_alphabet \/ c = "="%char)
                                (base64_encode (a :: b :: l)))).
  { induction l as [|x l (IH0 & IH1 & IH2)].
    - repeat split; intros; cbn [base64_encode];
        repeat (apply Forall_cons;
                [first [left; apply sextet_in_alphabet | right; reflexivity]|]);
        apply Forall_nil.
    - repeat split; intros; auto.
      cbn [base64_encode];
        repeat (apply Forall_cons;
                [first [left; apply sextet_in_alphabet | right; reflexivity]|]);
        exact IH0. }
  apply H.
Qed.

Lemma is_base64_no_line_terminator (s : str) :
  is_base64 s -> no_line_terminator s.
Proof.
  apply Forall_impl; intros c [H | ->]; [|reflexivity].
  assert (A : forallb (fun c => negb (is_line_terminator c)) base64_alphabet = true)
    by reflexivity.
  rewrite forallb_forall in A; specialize (A c H).
  now destruct (is_line_terminator c).
Qed.

Lemma base64_encode_nil_iff (l : list Byte.byte) : base64_encode l = [] <-> l = [].
Proof.
  split; [|now intros ->].
  destruct l as [|a [|b [|c t]]]; [reflexivity | discriminate ..].
Qed.

(** * The constructor of ImageFile *)

Lemma new_ImageFile_File (cfg : Config) (path : str) (content : list Byte.byte)
    (w : world) :
  1 <= partialChunks cfg ->
  tree w path = Some (File content) ->
  new_ImageFile cfg path w =
  (Ret (mkImageFile path (base64_encode content)
          (match base64_encode content with
           | [] => None
           | _ :: _ =>
               Some (slices (List.length (base64_encode content)) (partialChunks cfg)
                       (base64_encode content))
           end)), w).
Proof.
  intros Hn Ht.
  unfold new_ImageFile, bind, fs_readFileSync, lift, ret.
  rewrite Ht, new_RegExp_chunk_pattern by exact Hn.
  rewrite String_match_g_chunk_regex; auto.
  apply is_base64_no_line_terminator, base64_encode_is_base64.
Qed.

(** For a base64 text that is not empty the constructor's
    [match(RegExp(`.{1,${n}}`, "g"))] answers ceil(L/n) chunks that make up
    the text again, each of [n] characters but the last, which has
    L - n * (ceil(L/n) - 1). *)
Lemma chunks_of_nonempty_text (cfg : Config) (s : str) :
  1 <= partialChunks cfg -> is_base64 s -> s <> [] ->
  exists (r : regex) (l : list str),
    new_RegExp_flags (chunk_pattern cfg) "g" = Ret r /\
    String_match_g r s = Some l /\
    List.concat l = s /\
    List.length l = (List.length s + partialChunks cfg - 1) / partialChunks cfg /\
    Forall (fun piece => List.length piece = partialChunks cfg) (removelast l) /\
    List.length (last l [])
    = List.length s - partialChunks cfg * (List.length l - 1).
Proof.
  intros Hn Hb Hs.
  exists (chunk_regex (partialChunks cfg)),
         (slices (List.length s) (partialChunks cfg) s).
  rewrite new_RegExp_chunk_pattern by exact Hn.
  rewrite String_match_g_chunk_regex
    by auto using is_base64_no_line_terminator.
  destruct (@slices_piece_lengths (partialChunks cfg) (List.length s) s)
    as [P1 P2]; auto.
  repeat split; auto using slices_concat, slices_length.
  destruct s; [congruence | reflexivity].
Qed.

Lemma chunks_of_nonempty_text_example :
  exists r, new_RegExp (chunk_pattern (mkConfig "jpg|jpeg|png" 4)) = Ret r /\
    String_match_g r "XYZABCD1234QQQ"
    = Some ["XYZA" : str; "BCD1" : str; "234Q" : str; "QQ" : str].
Proof. eexists; split; reflexivity. Qed.

(** * log and exit *)

Lemma log_eq (message : str) (level : nat) (err : option error) (w : world) :
  log message level err w = (Ret tt, logged (log_line message level err) w).
Proof.
  unfold log, logged, log_line, try_catch, bind, console_info_, console_error_,
    fs_appendFileSync_logs_log.
  destruct err; cbn [logs_writable add_console logs_log];
    destruct (logs_writable w); reflexivity.
Qed.

Lemma exit_eq {A : Type} (message : str) (level : nat) (err : option error) (w : world) :
  @exit A message level err w
  = (Halt in_exit 1,
     logged (log_line "Exiting..." 0 None) (logged (log_line message level err) w)).
Proof. unfold exit, bind; now rewrite !log_eq. Qed.

Lemma logged_tree (line : str) (w : world) : tree (logged line w) = tree w.
Proof. unfold logged; now destruct (logs_writable w). Qed.

Lemma logged_store_db (line : str) (w : world) : store_db (logged line w) = store_db w.
Proof. unfold logged; now destruct (logs_writable w). Qed.

Lemma logged_store_writable (line : str) (w : world) :
  store_writable (logged line w) = store_writable w.
Proof. unfold logged; now destruct (logs_writable w). Qed.

Lemma logged_store_text (line : str) (w : world) :
  store_text (logged line w) = store_text w.
Proof. unfold store_text; now rewrite logged_store_db. Qed.

Lemma logged_console (line : str) (w : world) :
  exists more, console (logged line w) = console w ++ console_info line :: more.
Proof.
  unfold logged; destruct (logs_writable w); cbn [console set_logs_log add_console].
  - now exists [].
  - exists [console_error (EACCES "logs.log")]; now rewrite <- app_assoc.
Qed.

(** * One image in flag and in check *)

Lemma flag_file_new (data : str) (stats : Stats) (file : ImageFile) (w : world) :
  includes data (base64 file) = false ->
  store_writable w = true ->
  flag_file data stats file w =
  (Ret (bump stats),
   logged (log_line ("File flagged: " +++ filePath file) 0 None)
     (set_store_db (store_text w ++ base64 file ++ LF) w)).
Proof.
  intros Hn Hw.
  unfold flag_file, store, bind, lift, try_catch, existsInData,
    fs_appendFileSync_store_db.
  rewrite escaped_test_includes, Hn; cbn [negb].
  rewrite Hw, log_eq; reflexivity.
Qed.

Lemma flag_file_known (data : str) (stats : Stats) (file : ImageFile) (w : world) :
  includes data (base64 file) = true ->
  flag_file data stats file w =
  (Ret stats,
   logged (log_line ("File already exists in data store: " +++ filePath file) 0 None) w).
Proof.
  intros Hy.
  unfold flag_file, bind, lift, existsInData.
  rewrite escaped_test_includes, Hy; cbn [negb].
  now rewrite log_eq.
Qed.

Lemma flag_file_unwritable (data : str) (stats : Stats) (file : ImageFile) (w : world) :
  includes data (base64 file) = false ->
  store_writable w = false ->
  flag_file data stats file w =
  (Halt in_exit 1,
   logged (log_line "Exiting..." 0 None)
     (logged (log_line ("Error storing file: " +++ filePath file) 2
                (Some (EACCES "store.db"))) w)).
Proof.
  intros Hn Hw.
  unfold flag_file, store, bind, lift, try_catch, existsInData,
    fs_appendFileSync_store_db.
  rewrite escaped_test_includes, Hn; cbn [negb].
  rewrite Hw, exit_eq; reflexivity.
Qed.

(** * preload of one file *)

Lemma validate_cases (cfg : Config) (file : str) :
  (exists b, validate cfg file = Ret b) \/ (exists e, validate cfg file = Throw e).
Proof.
  unfold validate, checkFileExtension, new_RegExp, new_RegExp_flags.
  destruct (parse_pattern (imageExtensions cfg)) as [r rest|why];
    [left | right; eauto].
  destruct (test r file); cbn [negb]; eauto.
Qed.

Lemma preload_single_file (cfg : Config) (path : str) (content : list Byte.byte)
    (d : str) (w : world) :
  1 <= partialChunks cfg ->
  tree w path = Some (File content) ->
  validate cfg path = Ret true ->
  store_db w = Some d ->
  exists image,
    filePath image = path /\ base64 image = base64_encode content /\
    preload cfg [path] w = (Ret ([image], mkStats 0 1, d), w).
Proof.
  intros Hn Ht Hv Hd.
  eexists; split; [|split]; cycle 2.
  - unfold preload, bind, fs_statSync, lift, fs_readFileSync_store_db, ret.
    cbn [hd_error hd].
    rewrite Ht, Hv, (new_ImageFile_File cfg path w Hn Ht).
    cbn [app List.length Nat.eqb].
    rewrite Hd; reflexivity.
  - reflexivity.
  - reflexivity.
Qed.

(** * flag of one file *)

Lemma flag_single_new {A : Type} (cfg : Config) (path : str)
    (content : list Byte.byte) (d : str) (w : world) :
  1 <= partialChunks cfg ->
  tree w path = Some (File content) ->
  validate cfg path = Ret true ->
  store_db w = Some d ->
  store_writable w = true ->
  includes d (base64_encode content) = false ->
  @flag cfg A [path] w =
  (Halt in_exit 1,
   logged exiting
     (logged (log_line "Flag complete. Added 1/1 file(s)." 0 None)
        (logged (log_line ("File flagged: " +++ path) 0 None)
           (set_store_db (d ++ base64_encode content ++ LF) w)))).
Proof.
  intros Hn Ht Hv Hd Hw Hi.
  destruct (preload_single_file cfg path w Hn Ht Hv Hd) as (image & Hp & Hb & E).
  unfold flag, bind; rewrite E; cbn [forEach]; unfold bind.
  rewrite flag_file_new by (rewrite ?Hb; assumption).
  unfold ret; rewrite exit_eq, Hp, Hb.
  unfold store_text; rewrite Hd.
  reflexivity.
Qed.

Lemma flag_single_known {A : Type} (cfg : Config) (path : str)
    (content : list Byte.byte) (d : str) (w : world) :
  1 <= partialChunks cfg ->
  tree w path = Some (File content) ->
  validate cfg path = Ret true ->
  store_db w = Some d ->
  includes d (base64_encode content) = true ->
  @flag cfg A [path] w =
  (Halt in_exit 1,
   logged exiting
     (logged (log_line "Flag complete. Added 0/1 file(s)." 0 None)
        (logged (log_line ("File already exists in data store: " +++ path) 0 None) w))).
Proof.
  intros Hn Ht Hv Hd Hi.
  destruct (preload_single_file cfg path w Hn Ht Hv Hd) as (image & Hp & Hb & E).
  unfold flag, bind; rewrite E; cbn [forEach]; unfold bind.
  rewrite flag_file_known by (rewrite ?Hb; assumption).
  unfold ret; rewrite exit_eq, Hp.
  reflexivity.
Qed.

(** C5.  For every image X whose base64 text does not occur in the loaded
    store text, one flag of X (with a store that can be written) appends
    exactly one line, the base64 text of X and a newline, at the end of the
    store and leaves what was there as it was; the tally goes up by exactly 1;
    and afterwards existsInData of X against the new store text is true. *)
Theorem flag_of_new_image_appends_one_line
    (X : ImageFile) (data : str) (stats : Stats) (w : world) :
  includes data (base64 X) = false ->
  store_writable w = true ->
  exists (stats' : Stats) (w' : world),
    flag_file data stats X w = (Ret stats', w') /\
    store_db w' = Some (store_text w ++ base64 X ++ LF) /\
    tally stats' = S (tally stats) /\ total stats' = total stats /\
    existsInData X (store_text w') = Ret true.
Proof.
  intros Hn Hw.
  exists (bump stats); eexists; split; [apply flag_file_new; assumption|].
  rewrite logged_store_db, logged_store_text.
  unfold store_text at 2; cbn [set_store_db store_db bump tally total].
  repeat split.
  unfold existsInData; rewrite escaped_test_includes.
  f_equal; apply includes_self_app.
Qed.

(** * What a computation leaves alone *)

Section Frame.

Variables (B : Type) (f : world -> B).

Lemma preserves_ret {A} (a : A) : preserves f (ret a).
Proof. now intros w. Qed.

Lemma preserves_lift {A} (r : result A) : preserves f (lift r).
Proof. now intros w. Qed.

Lemma preserves_throw {A} (e : error) : preserves f (@throw A e).
Proof. now intros w. Qed.

Lemma preserves_process_exit {A} (site : exit_site) (n : nat) :
  preserves f (@process_exit A site n).
Proof. now intros w. Qed.

Lemma preserves_bind {A C} (m : M A) (k : A -> M C) :
  preserves f m -> (forall a, preserves f (k a)) -> preserves f (bind m k).
Proof.
  intros Hm Hk w; unfold bind.
  specialize (Hm w); destruct (m w) as [[a|e|site n] w']; cbn [snd] in *;
    [rewrite Hk|..]; exact Hm.
Qed.

Lemma preserves_try_catch {A} (m : M A) (h : error -> M A) :
  preserves f m -> (forall e, preserves f (h e)) -> preserves f (try_catch m h).
Proof.
  intros Hm Hh w; unfold try_catch.
  specialize (Hm w); destruct (m w) as [[a|e|site n] w']; cbn [snd] in *;
    [|rewrite Hh|]; exact Hm.
Qed.

Lemma preserves_forEach {A S} (body : S -> A -> M S) (l : list A) (s : S) :
  (forall s a, preserves f (body s a)) -> preserves f (forEach body l s).
Proof.
  intros Hb; revert s; induction l as [|a l IH]; intros s; cbn [forEach].
  - apply preserves_ret.
  - apply preserves_bind; auto.
Qed.

Lemma preserves_if {A} (b : bool) (m1 m2 : M A) :
  preserves f m1 -> preserves f m2 -> preserves f (if b then m1 else m2).
Proof. now destruct b. Qed.

Lemma preserves_fs_statSync (path : option str) : preserves f (fs_statSync path).
Proof.
  intros w; unfold fs_statSync.
  destruct path as [p|]; [destruct (tree w p)|]; reflexivity.
Qed.

Lemma preserves_fs_readdirSync (path : str) : preserves f (fs_readdirSync path).
Proof.
  intros w; unfold fs_readdirSync.
  destruct (tree w path) as [[]|]; reflexivity.
Qed.

Lemma preserves_fs_readFileSync (path : str) : preserves f (fs_readFileSync path).
Proof.
  intros w; unfold fs_readFileSync.
  destruct (tree w path) as [[]|]; reflexivity.
Qed.

Lemma preserves_fs_readFileSync_store_db : preserves f fs_readFileSync_store_db.
Proof.
  intros w; unfold fs_readFileSync_store_db.
  destruct (store_db w); reflexivity.
Qed.

Lemma preserves_fs_existsSync_store_db : preserves f fs_existsSync_store_db.
Proof. now intros w. Qed.

(** [f] does not look at the console or at logs.log. *)
Hypothesis f_console : forall e w, f (add_console e w) = f w.
Hypothesis f_logs : forall l w, f (set_logs_log l w) = f w.

Lemma f_logged (line : str) (w : world) : f (logged line w) = f w.
Proof.
  unfold logged; destruct (logs_writable w);
    now rewrite ?f_logs, ?f_console.
Qed.

Lemma preserves_log (message : str) (level : nat) (err : option error) :
  preserves f (log message level err).
Proof. intros w; rewrite log_eq; apply f_logged. Qed.

Lemma preserves_exit {A} (message : str) (level : nat) (err : option error) :
  preserves f (@exit A message level err).
Proof. intros w; rewrite exit_eq; cbn [snd]; now rewrite !f_logged. Qed.

Lemma preserves_help {A} (argv2 : option str) : preserves f (@help A argv2).
Proof.
  intros w; unfold help, bind, console_info_, process_exit, lift; cbn [snd].
  apply f_console.
Qed.

Lemma preserves_new_ImageFile (cfg : Config) (path : str) :
  preserves f (new_ImageFile cfg path).
Proof.
  unfold new_ImageFile.
  apply preserves_bind; [apply preserves_fs_readFileSync|]; intros content.
  apply preserves_bind; [apply preserves_lift|]; intros r.
  apply preserves_ret.
Qed.

Lemma preserves_preload (cfg : Config) (args : list str) :
  preserves f (preload cfg args).
Proof.
  unfold preload.
  apply preserves_bind; [apply preserves_fs_statSync|]; intros arg.
  apply preserves_bind.
  { destruct arg; try apply preserves_ret.
    apply preserves_bind; [apply preserves_fs_readdirSync|]; intros entries.
    apply preserves_forEach; intros files item.
    apply preserves_bind; [apply preserves_lift|]; intros ok.
    apply preserves_if; [|apply preserves_ret].
    apply preserves_bind; [apply preserves_new_ImageFile|]; intros image.
    apply preserves_ret. }
  intros files.
  apply preserves_bind.
  { destruct arg; try apply preserves_ret.
    apply preserves_bind; [apply preserves_lift|]; intros ok.
    apply preserves_if; [|apply preserves_ret].
    apply preserves_bind; [apply preserves_new_ImageFile|]; intros image.
    apply preserves_ret. }
  intros files'.
  apply preserves_bind.
  { apply preserves_if; [apply preserves_exit | apply preserves_ret]. }
  intros _.
  apply preserves_bind; [apply preserves_fs_readFileSync_store_db|]; intros data.
  apply preserves_ret.
Qed.

Lemma preserves_check_file (args : list str) (data : str) (stats : Stats)
    (file : ImageFile) :
  preserves f (check_file args data stats file).
Proof.
  unfold check_file.
  apply preserves_bind.
  { apply preserves_if; [apply preserves_lift | apply preserves_ret]. }
  intros chunkExists.
  apply preserves_bind; [apply preserves_lift|]; intros found.
  apply preserves_if;
    (apply preserves_bind; [apply preserves_log | intros _; apply preserves_ret]).
Qed.

Lemma preserves_check {A} (cfg : Config) (args : list str) :
  preserves f (@check cfg A args).
Proof.
  unfold check.
  apply preserves_bind; [apply preserves_preload|]; intros [[files stats] data].
  apply preserves_bind.
  { apply preserves_forEach; intros s a; apply preserves_check_file. }
  intros stats'; apply preserves_exit.
Qed.

(** [f] does not look at the text of store.db either. *)
Hypothesis f_store : forall d w, f (set_store_db d w) = f w.

Lemma preserves_fs_appendFileSync_store_db (d : str) :
  preserves f (fs_appendFileSync_store_db d).
Proof.
  intros w; unfold fs_appendFileSync_store_db.
  destruct (store_writable w); cbn [snd]; [apply f_store | reflexivity].
Qed.

Lemma preserves_fs_writeFileSync_store_db (d : str) :
  preserves f (fs_writeFileSync_store_db d).
Proof.
  intros w; unfold fs_writeFileSync_store_db.
  destruct (store_writable w); cbn [snd]; [apply f_store | reflexivity].
Qed.

Lemma preserves_store (file : ImageFile) (data : str) : preserves f (store file data).
Proof.
  unfold store.
  apply preserves_bind; [apply preserves_lift|]; intros already.
  apply preserves_if.
  - apply preserves_bind; [apply preserves_log | intros _; apply preserves_ret].
  - apply preserves_try_catch; [|intros e; apply preserves_exit].
    apply preserves_bind; [apply preserves_fs_appendFileSync_store_db|]; intros _.
    apply preserves_bind; [apply preserves_log | intros _; apply preserves_ret].
Qed.

Lemma preserves_flag_file (data : str) (stats : Stats) (file : ImageFile) :
  preserves f (flag_file data stats file).
Proof.
  unfold flag_file.
  apply preserves_bind; [apply preserves_lift|]; intros exists_.
  apply preserves_if.
  - apply preserves_bind; [apply preserves_store | intros save; apply preserves_ret].
  - apply preserves_bind; [apply preserves_log | intros _; apply preserves_ret].
Qed.

Lemma preserves_flag {A} (cfg : Config) (args : list str) :
  preserves f (@flag cfg A args).
Proof.
  unfold flag.
  apply preserves_bind; [apply preserves_preload|]; intros [[files stats] data].
  apply preserves_bind.
  { apply preserves_forEach; intros s a; apply preserves_flag_file. }
  intros stats'; apply preserves_exit.
Qed.

End Frame.

(** * check leaves the store alone *)

Lemma store_text_add_console (e : console_entry) (w : world) :
  store_text (add_console e w) = store_text w.
Proof. reflexivity. Qed.

Lemma store_text_set_logs_log (l : str) (w : world) :
  store_text (set_logs_log l w) = store_text w.
Proof. reflexivity. Qed.

Lemma eval_call_check (cfg : Config) (args : list str) :
  eval_call cfg "check" args = check cfg args.
Proof. reflexivity. Qed.

Lemma eval_call_flag (cfg : Config) (args : list str) :
  eval_call cfg "flag" args = flag cfg args.
Proof. reflexivity. Qed.

(** The first lines of the script create store.db when it is missing: the
    text of the store is the same before and after. *)
Lemma create_store_text (w : world) :
  store_text
    (snd ((present <- fs_existsSync_store_db ;;
           if negb present then fs_writeFileSync_store_db [] else ret tt) w))
  = store_text w.
Proof.
  unfold bind, fs_existsSync_store_db, fs_writeFileSync_store_db, store_text, ret.
  destruct (store_db w) eqn:E; cbn [negb snd]; [now rewrite E|].
  destruct (store_writable w); cbn [snd set_store_db store_db]; now rewrite ?E.
Qed.

(** C7.  A check command, with or without --partial, over any arguments and
    any world, never changes the store: store.db is after the call of
    [check] what it was before, and over the whole run of the script (which
    creates an empty store.db when there is none) the text of the store is
    the same at the end as at the start. *)
Theorem check_never_mutates_store (cfg : Config) (args : list str) (w : world) :
  store_db (snd (@check cfg unit args w)) = store_db w /\
  store_text (snd (run cfg (("check" : str) :: args) w)) = store_text w.
Proof.
  split.
  - now apply preserves_check.
  - assert (E : snd (run cfg (("check" : str) :: args) w)
                = snd (main cfg (("check" : str) :: args) w)).
    { unfold run; now destruct (main cfg _ w) as [[a|e|site n] w']. }
    rewrite E; clear E.
    unfold main; cbn [List.length Nat.eqb hd tl hd_error].
    unfold bind at 1, ret at 1.
    unfold bind at 1.
    destruct (existsb (str_eqb "--help") (("check" : str) :: args)).
    + pose proof (@preserves_help _ store_text store_text_add_console unit
                    (Some ("check" : str)) w) as H.
      destruct (help (Some ("check" : str)) w) as [[a|e|site n] w'] eqn:Eh;
        try exact H.
      unfold help, bind, console_info_, process_exit, lift in Eh; discriminate Eh.
    + unfold ret at 1.
      pose proof (create_store_text w) as Hc.
      rewrite eval_call_check.
      unfold bind at 1 in Hc; unfold bind at 1.
      destruct (fs_existsSync_store_db w) as [[present|e|site n] w1];
        try exact Hc.
      unfold bind at 1.
      destruct ((if negb present then fs_writeFileSync_store_db [] else ret tt) w1)
        as [[[]|e|site n] w2]; cbn [snd] in Hc |- *; try exact Hc.
      rewrite <- Hc.
      apply (@preserves_try_catch _ store_text).
      * now apply preserves_check.
      * intros e; now apply preserves_exit.
Qed.

(** * flag twice *)

Lemma flag_keeps_tree {A : Type} (cfg : Config) (args : list str) (w : world) :
  tree (snd (@flag cfg A args w)) = tree w.
Proof. now apply preserves_flag. Qed.

Lemma flag_keeps_store_writable {A : Type} (cfg : Config) (args : list str) (w : world) :
  store_writable (snd (@flag cfg A args w)) = store_writable w.
Proof. now apply preserves_flag. Qed.

(** C4.  Flagging the same image in two successive invocations does not
    append two entries.  With a store that can be written, the first flag
    leaves the image in the store (appending its line unless the text was
    there already); the second invocation then logs "File already exists in
    data store", ends with "Added 0/1", the tally not incremented, and leaves
    store.db as it found it. *)
Theorem second_flag_of_same_image_appends_nothing
    (cfg : Config) (path : str) (content : list Byte.byte) (d : str) (w0 : world) :
  1 <= partialChunks cfg ->
  tree w0 path = Some (File content) ->
  validate cfg path = Ret true ->
  store_db w0 = Some d ->
  store_writable w0 = true ->
  let b := base64_encode content in
  let w1 := snd (@flag cfg unit [path] w0) in
  store_db w1 = Some (d ++ (if includes d b then [] else b ++ LF)) /\
  @flag cfg unit [path] w1 =
  (Halt in_exit 1,
   logged exiting
     (logged (log_line "Flag complete. Added 0/1 file(s)." 0 None)
        (logged (log_line ("File already exists in data store: " +++ path) 0 None)
           w1))) /\
  store_db (snd (@flag cfg unit [path] w1)) = store_db w1.
Proof.
  intros Hn Ht Hv Hd Hw b w1.
  assert (Ht1 : tree w1 path = Some (File content))
    by (unfold w1; now rewrite flag_keeps_tree).
  assert (H1 : store_db w1 = Some (d ++ (if includes d b then [] else b ++ LF))).
  { unfold w1; destruct (includes d b) eqn:Ei.
    - rewrite (flag_single_known (A := unit) cfg path w0 Hn Ht Hv Hd Ei).
      cbn [snd]; now rewrite !logged_store_db, app_nil_r.
    - rewrite (flag_single_new (A := unit) cfg path w0 Hn Ht Hv Hd Hw Ei).
      cbn [snd]; now rewrite !logged_store_db. }
  assert (H2 : includes (d ++ (if includes d b then [] else b ++ LF)) b = true).
  { destruct (includes d b) eqn:Ei.
    - now rewrite app_nil_r.
    - apply includes_self_app. }
  pose proof (flag_single_known (A := unit) cfg path w1 Hn Ht1 Hv H1 H2) as E.
  split; [exact H1 | split; [exact E|]].
  rewrite E; cbn [snd]; now rewrite !logged_store_db.
Qed.

Lemma second_flag_of_same_image_appends_nothing_witness :
  let w1 := snd (@flag config unit ["imgA.png" : str] sample_world) in
  store_db w1 = Some ("ABCD" +++ LF) /\
  store_db (snd (@flag config unit ["imgA.png" : str] w1)) = store_db w1.
Proof.
  intros w1.
  destruct (@second_flag_of_same_image_appends_nothing config "imgA.png"
              [Byte.x00; Byte.x10; Byte.x83] [] sample_world)
    as (H1 & _ & H3).
  - cbn [partialChunks config]; lia.
  - reflexivity.
  - reflexivity.
  - reflexivity.
  - reflexivity.
  - split; [exact H1 | exact H3].
Defined.

Lemma flag_of_new_image_appends_one_line_witness :
  let X := mkImageFile "imgA.png" "ABCD1234" (Some ["ABCD1234" : str]) in
  exists (stats' : Stats) (w' : world),
    flag_file [] (mkStats 0 1) X sample_world = (Ret stats', w') /\
    store_db w' = Some ("ABCD1234" +++ LF) /\
    tally stats' = 1 /\ total stats' = 1 /\
    existsInData X (store_text w') = Ret true.
Proof.
  intros X.
  apply (@flag_of_new_image_appends_one_line X [] (mkStats 0 1) sample_world);
    reflexivity.
Defined.

(** * How a computation can end *)

Lemma no_Halt_validate (cfg : Config) (file : str) : no_Halt (validate cfg file).
Proof.
  destruct (validate_cases cfg file) as [[b ->] | [e ->]]; exact I.
Qed.



Lemma no_Halt_new_RegExp_flags (pattern flags : str) :
  no_Halt (new_RegExp_flags pattern flags).
Proof. unfold new_RegExp_flags; now destruct (parse_pattern pattern). Qed.

Lemma no_Halt_new_RegExp (pattern : str) : no_Halt (new_RegExp pattern).
Proof. apply no_Halt_new_RegExp_flags. Qed.



Lemma hoe_throw {A} (e : error) : halts_only_in_exit (@throw A e).
Proof. now intros w. Qed.
























(** * How the script ends *)


Lemma help_halts {A : Type} (argv2 : option str) (w : world) :
  fst (@help A argv2 w) = Halt in_help 1.
Proof. reflexivity. Qed.



Lemma create_store_returns (w : world) :
  store_db w <> None \/ store_writable w = true ->
  exists w1,
    (present <- fs_existsSync_store_db ;;
     if negb present then fs_writeFileSync_store_db [] else ret tt) w = (Ret tt, w1).
Proof.
  intros H; unfold bind, fs_existsSync_store_db, fs_writeFileSync_store_db, ret.
  destruct (store_db w); cbn [negb]; [eauto|].
  destruct H as [H|H]; [congruence|]; rewrite H; eauto.
Qed.

Lemma main_with_store (cfg : Config) (command : str) (args : list str) (d : str)
    (w : world) :
  store_db w = Some d ->
  existsb (str_eqb "--help") (command :: args) = false ->
  main cfg (command :: args) w
  = try_catch (eval_call cfg command args)
      (fun err => exit ("Command not found: " +++ command) 2 (Some err)) w.
Proof.
  intros Hd Hh.
  unfold main, bind, ret, fs_existsSync_store_db, fs_writeFileSync_store_db.
  cbn [List.length Nat.eqb hd tl]; rewrite Hh, Hd.
  reflexivity.
Qed.

Lemma main_creates_store (cfg : Config) (command : str) (args : list str) (w : world) :
  store_db w = None ->
  store_writable w = true ->
  existsb (str_eqb "--help") (command :: args) = false ->
  main cfg (command :: args) w
  = try_catch (eval_call cfg command args)
      (fun err => exit ("Command not found: " +++ command) 2 (Some err))
      (set_store_db [] w).
Proof.
  intros Hd Hw Hh.
  unfold main, bind, ret, fs_existsSync_store_db, fs_writeFileSync_store_db.
  cbn [List.length Nat.eqb hd tl]; rewrite Hh, Hd; cbn [negb]; rewrite Hw.
  reflexivity.
Qed.

Lemma main_without_store (cfg : Config) (command : str) (args : list str) (w : world) :
  store_db w = None ->
  store_writable w = false ->
  existsb (str_eqb "--help") (command :: args) = false ->
  main cfg (command :: args) w = (Throw (EACCES "store.db"), w).
Proof.
  intros Hd Hw Hh.
  unfold main, bind, ret, fs_existsSync_store_db, fs_writeFileSync_store_db.
  cbn [List.length Nat.eqb hd tl]; rewrite Hh, Hd; cbn [negb]; rewrite Hw.
  reflexivity.
Qed.

(** The script from top to bottom, by the way it goes. *)
Lemma main_cases (cfg : Config) (argv : list str) (w : world) :
  main cfg argv w =
  match argv with
  | [] => exit "Command missing. Use --help to view current commands." 2 None w
  | command :: args =>
      if existsb (str_eqb "--help") argv then help (Some command) w
      else
        match store_db w with
        | Some _ =>
            try_catch (eval_call cfg command args)
              (fun err => exit ("Command not found: " +++ command) 2 (Some err)) w
        | None =>
            if store_writable w then
              try_catch (eval_call cfg command args)
                (fun err => exit ("Command not found: " +++ command) 2 (Some err))
                (set_store_db [] w)
            else (Throw (EACCES "store.db"), w)
        end
  end.
Proof.
  destruct argv as [|command args].
  - unfold main; cbn [List.length Nat.eqb].
    unfold bind at 1; now rewrite !exit_eq.
  - destruct (existsb (str_eqb "--help") (command :: args)) eqn:Hh.
    + unfold main; cbn [List.length Nat.eqb hd tl hd_error]; rewrite Hh.
      reflexivity.
    + destruct (store_db w) as [d|] eqn:Ed; [|destruct (store_writable w) eqn:Ew].
      * apply (main_with_store cfg command args w Ed Hh).
      * apply (main_creates_store cfg command args w Ed Ew Hh).
      * apply (main_without_store cfg command args w Ed Ew Hh).
Qed.

(** With --help among the words or no word at all, and only then, a run may
    have a command word that is not declared: it ends before [eval]. *)
Lemma within_script_declared (command : str) (args : list str) :
  within_script (command :: args) = true ->
  existsb (str_eqb "--help") (command :: args) = false ->
  existsb (str_eqb command) declared = true.
Proof. unfold within_script; intros H Hh; now rewrite Hh in H. Qed.




(** * Where the script goes wrong *)

(** C3, at the input on which the script breaks it.  The directory imgs
    holds two files of the same bytes and the store is empty.  One flag of the
    directory tests both files against the store text read before the loop,
    appends both, and leaves a store with the same line twice. *)
Theorem flag_batch_stores_duplicate_lines :
  let w' := snd (run config ["flag" : str; "imgs" : str] sample_world) in
  NoDup (store_lines sample_world) /\
  store_db w' = Some ("ABCD" +++ LF +++ "ABCD" +++ LF) /\
  store_lines w' = ["ABCD" : str; "ABCD" : str] /\
  ~ NoDup (store_lines w').
Proof.
  intros w'.
  assert (E : store_lines w' = ["ABCD" : str; "ABCD" : str]) by reflexivity.
  repeat split; try reflexivity.
  - constructor.
  - rewrite E; intros H; inversion H as [|? ? Hnotin _]; subst.
    apply Hnotin; now left.
Qed.

(** C6, at the input on which the script breaks it.  The base64 text of a
    file of no bytes is empty; [match] with the chunk pattern then answers
    null, not an empty array, and [chunksExistInData] throws a TypeError on
    [this.chunks.every] where an empty sequence would have answered false. *)
Theorem chunks_of_empty_image_are_null :
  new_ImageFile config "empty.png" sample_world
  = (Ret (mkImageFile "empty.png" [] None), sample_world) /\
  (forall data, chunksExistInData (mkImageFile "empty.png" [] None) data
                = Throw null_every) /\
  (forall data, chunksExistInData (mkImageFile "empty.png" [] (Some [])) data
                = Ret false).
Proof. repeat split. Qed.

(** C8, at the input on which the script breaks it.  The name
    notes.png.txt does not end in jpg, jpeg or png, yet [validate] accepts it,
    because the pattern is searched for anywhere in the path; [preload] makes
    an ImageFile of it and flag stores it. *)
Theorem file_without_accepted_suffix_is_processed :
  validate config "notes.png.txt" = Ret true /\
  preload config ["notes.png.txt" : str] sample_world
  = (Ret ([mkImageFile "notes.png.txt" "aGk=" (Some ["aGk=" : str])],
          mkStats 0 1, []), sample_world) /\
  store_db (snd (run config ["flag" : str; "notes.png.txt" : str] sample_world))
  = Some ("aGk=" +++ LF).
Proof.
  repeat split.
Qed.

(** The parts of C10 that hold: an image whose base64 text is empty exists
    in every store text; flag reports it as existing and appends nothing;
    check without --partial reports it as found. *)
Lemma existsInData_empty_base64 (X : ImageFile) (data : str) :
  base64 X = [] -> existsInData X data = Ret true.
Proof.
  intros E; unfold existsInData; rewrite escaped_test_includes, E.
  now rewrite includes_nil.
Qed.

Lemma flag_file_empty_base64 (X : ImageFile) (data : str) (stats : Stats) (w : world) :
  base64 X = [] ->
  flag_file data stats X w =
  (Ret stats,
   logged (log_line ("File already exists in data store: " +++ filePath X) 0 None) w).
Proof.
  intros E; apply flag_file_known; rewrite E; apply includes_nil.
Qed.

Lemma check_file_empty_base64_exact (X : ImageFile) (args : list str) (data : str)
    (stats : Stats) (w : world) :
  base64 X = [] ->
  existsb (str_eqb "--partial") args = false ->
  check_file args data stats X w =
  (Ret (bump stats),
   logged (log_line ("File found in data store: " +++ filePath X) 0 None) w).
Proof.
  intros E Hp; unfold check_file; rewrite Hp.
  unfold bind, ret, lift; rewrite (existsInData_empty_base64 X data E).
  cbn [orb]; now rewrite log_eq.
Qed.

(** C10, at the input on which the script breaks it.  With --partial, check
    of a file of no bytes does not report it as found: the chunks are null,
    chunksExistInData throws before the exact test is made, and the run ends
    with "Command not found: check".  Without --partial the same file is
    reported as found. *)
Theorem check_partial_of_empty_file_reports_nothing_found :
  let w' := snd (run config ["check" : str; "empty.png" : str; "--partial" : str]
                   sample_world) in
  console w' =
    [console_info (log_line "Command not found: check" 2 (Some null_every));
     console_info exiting] /\
  ~ In (console_info (log_line "File found in data store: empty.png" 0 None))
      (console w') /\
  In (console_info (log_line "File found in data store: empty.png" 0 None))
    (console (snd (run config ["check" : str; "empty.png" : str] sample_world))).
Proof.
  intros w'.
  assert (E : console w' =
              [console_info (log_line "Command not found: check" 2 (Some null_every));
               console_info exiting]) by reflexivity.
  split; [exact E | split].
  - rewrite E; intros [H | [H | []]]; discriminate H.
  - left; reflexivity.
Qed.

(** What [validate] decides with the configuration of the script: whether
    jpg, jpeg or png occurs anywhere in the path. *)
Lemma match_at_Alt (r1 r2 : regex) (x : MatchState) :
  match_at (Alt r1 r2) x =
  match match_at r1 x with
  | Some z => Some z
  | None => match_at r2 x
  end.
Proof. reflexivity. Qed.

Lemma found_Alt (r1 r2 : regex) (i : nat) (s : str) :
  found (Alt r1 r2) i s = found r1 i s || found r2 i s.
Proof.
  unfold found; revert i; induction s as [|a t IH]; intros i; cbn [exec_from];
    rewrite match_at_Alt.
  - destruct (match_at r1 _), (match_at r2 _); reflexivity.
  - destruct (match_at r1 _), (match_at r2 _); cbn [orb];
      rewrite ?orb_true_r; try reflexivity.
    apply IH.
Qed.

Lemma validate_config (path : str) :
  validate config path
  = Ret (includes path "jpg" || includes path "jpeg" || includes path "png").
Proof.
  unfold validate, checkFileExtension, new_RegExp.
  rewrite (@new_RegExp_flags_Some (imageExtensions config) []
             (Alt (literal "jpg") (Alt (literal "jpeg") (literal "png"))) eq_refl).
  unfold test.
  rewrite !found_Alt.
  fold (test (literal "jpg") path) (test (literal "jpeg") path)
       (test (literal "png") path).
  rewrite !test_literal, orb_assoc.
  now destruct (_ || _).
Qed.

(** What flag does with two images of the same base64 text that the loaded
    store text does not hold: both are appended. *)
Lemma flag_two_images_of_same_text (X Y : ImageFile) (data : str) (stats : Stats)
    (w : world) :
  base64 Y = base64 X ->
  includes data (base64 X) = false ->
  store_writable w = true ->
  exists w',
    forEach (flag_file data) [X; Y] stats w = (Ret (bump (bump stats)), w') /\
    store_db w' = Some (store_text w ++ (base64 X ++ LF) ++ (base64 X ++ LF)).
Proof.
  intros E Hn Hw; cbn [forEach]; unfold bind at 1.
  rewrite flag_file_new by assumption.
  unfold bind at 1.
  rewrite flag_file_new
    by (rewrite ?E, ?logged_store_writable; assumption).
  eexists; split; [reflexivity|].
  rewrite logged_store_db, logged_store_text, E.
  cbn [set_store_db store_db store_text].
  now rewrite <- app_assoc.
Qed.

(** * Relations every step keeps *)

Lemma bind_assoc {A B C : Type} (m : M A) (f : A -> M B) (g : B -> M C) (w : world) :
  bind (bind m f) g w = bind m (fun a => bind (f a) g) w.
Proof.
  unfold bind; destruct (m w) as [[a|e|site n] w1]; reflexivity.
Qed.

Section Keeps.

Variable R : world -> world -> Prop.

Hypothesis R_refl : forall w, R w w.
Hypothesis R_trans : forall w1 w2 w3, R w1 w2 -> R w2 w3 -> R w1 w3.

Lemma keeps_ret {A} (a : A) : keeps R (ret a).
Proof. intros w; apply R_refl. Qed.

Lemma keeps_lift {A} (r : result A) : keeps R (lift r).
Proof. intros w; apply R_refl. Qed.

Lemma keeps_bind {A C} (m : M A) (k : A -> M C) :
  keeps R m -> (forall a, keeps R (k a)) -> keeps R (bind m k).
Proof.
  intros Hm Hk w; unfold bind.
  specialize (Hm w); destruct (m w) as [[a|e|site n] w']; cbn [snd] in *;
    [|exact Hm..].
  eapply R_trans; [exact Hm | apply Hk].
Qed.

Lemma keeps_try_catch {A} (m : M A) (h : error -> M A) :
  keeps R m -> (forall e, keeps R (h e)) -> keeps R (try_catch m h).
Proof.
  intros Hm Hh w; unfold try_catch.
  specialize (Hm w); destruct (m w) as [[a|e|site n] w']; cbn [snd] in *;
    [exact Hm | | exact Hm].
  eapply R_trans; [exact Hm | apply Hh].
Qed.

Lemma keeps_forEach {A S} (body : S -> A -> M S) (l : list A) (s : S) :
  (forall s a, keeps R (body s a)) -> keeps R (forEach body l s).
Proof.
  intros Hb; revert s; induction l as [|a l IH]; intros s; cbn [forEach].
  - apply keeps_ret.
  - apply keeps_bind; auto.
Qed.

Lemma keeps_if {A} (b : bool) (m1 m2 : M A) :
  keeps R m1 -> keeps R m2 -> keeps R (if b then m1 else m2).
Proof. now destruct b. Qed.

Lemma keeps_fs_statSync (path : option str) : keeps R (fs_statSync path).
Proof.
  intros w; unfold fs_statSync.
  destruct path as [p|]; [destruct (tree w p)|]; apply R_refl.
Qed.

Lemma keeps_fs_readdirSync (path : str) : keeps R (fs_readdirSync path).
Proof.
  intros w; unfold fs_readdirSync; destruct (tree w path) as [[]|]; apply R_refl.
Qed.

Lemma keeps_fs_readFileSync (path : str) : keeps R (fs_readFileSync path).
Proof.
  intros w; unfold fs_readFileSync; destruct (tree w path) as [[]|]; apply R_refl.
Qed.

Lemma keeps_fs_readFileSync_store_db : keeps R fs_readFileSync_store_db.
Proof.
  intros w; unfold fs_readFileSync_store_db; destruct (store_db w); apply R_refl.
Qed.

(** Printing and appending to logs.log are steps of [R]. *)
Hypothesis R_console : forall e w, R w (add_console e w).
Hypothesis R_logs : forall l w, R w (set_logs_log (logs_log w ++ l) w).

Lemma R_logged (line : str) (w : world) : R w (logged line w).
Proof.
  unfold logged; destruct (logs_writable w).
  - eapply R_trans; [apply R_console|].
    apply (R_logs (line ++ LF) (add_console (console_info line) w)).
  - eapply R_trans; apply R_console.
Qed.

Lemma keeps_log (message : str) (level : nat) (err : option error) :
  keeps R (log message level err).
Proof. intros w; rewrite log_eq; apply R_logged. Qed.

Lemma keeps_exit {A} (message : str) (level : nat) (err : option error) :
  keeps R (@exit A message level err).
Proof.
  intros w; rewrite exit_eq; cbn [snd].
  eapply R_trans; apply R_logged.
Qed.

Lemma keeps_help {A} (argv2 : option str) : keeps R (@help A argv2).
Proof. intros w; apply R_console. Qed.

Lemma keeps_new_ImageFile (cfg : Config) (path : str) :
  keeps R (new_ImageFile cfg path).
Proof.
  unfold new_ImageFile.
  apply keeps_bind; [apply keeps_fs_readFileSync|]; intros content.
  apply keeps_bind; [apply keeps_lift|]; intros r.
  apply keeps_ret.
Qed.

Lemma keeps_preload (cfg : Config) (args : list str) : keeps R (preload cfg args).
Proof.
  unfold preload.
  apply keeps_bind; [apply keeps_fs_statSync|]; intros arg.
  apply keeps_bind.
  { destruct arg; try apply keeps_ret.
    apply keeps_bind; [apply keeps_fs_readdirSync|]; intros entries.
    apply keeps_forEach; intros files item.
    apply keeps_bind; [apply keeps_lift|]; intros ok.
    apply keeps_if; [|apply keeps_ret].
    apply keeps_bind; [apply keeps_new_ImageFile|]; intros image.
    apply keeps_ret. }
  intros files.
  apply keeps_bind.
  { destruct arg; try apply keeps_ret.
    apply keeps_bind; [apply keeps_lift|]; intros ok.
    apply keeps_if; [|apply keeps_ret].
    apply keeps_bind; [apply keeps_new_ImageFile|]; intros image.
    apply keeps_ret. }
  intros files'.
  apply keeps_bind; [apply keeps_if; [apply keeps_exit | apply keeps_ret]|].
  intros _.
  apply keeps_bind; [apply keeps_fs_readFileSync_store_db|]; intros data.
  apply keeps_ret.
Qed.

Lemma keeps_check_file (args : list str) (data : str) (stats : Stats)
    (file : ImageFile) :
  keeps R (check_file args data stats file).
Proof.
  unfold check_file.
  apply keeps_bind; [apply keeps_if; [apply keeps_lift | apply keeps_ret]|].
  intros chunkExists.
  apply keeps_bind; [apply keeps_lift|]; intros found.
  apply keeps_if; (apply keeps_bind; [apply keeps_log | intros _; apply keeps_ret]).
Qed.

Lemma keeps_check {A} (cfg : Config) (args : list str) : keeps R (@check cfg A args).
Proof.
  unfold check.
  apply keeps_bind; [apply keeps_preload|]; intros [[files stats] data].
  apply keeps_bind; [apply keeps_forEach; intros s a; apply keeps_check_file|].
  intros stats'; apply keeps_exit.
Qed.

(** Appending to a store that can be written, and creating the store that
    is missing, are steps of [R]. *)
Hypothesis R_append :
  forall d w, store_writable w = true -> R w (set_store_db (store_text w ++ d) w).
Hypothesis R_create :
  forall w, store_db w = None -> store_writable w = true -> R w (set_store_db [] w).

Lemma keeps_fs_appendFileSync_store_db (d : str) :
  keeps R (fs_appendFileSync_store_db d).
Proof.
  intros w; unfold fs_appendFileSync_store_db.
  destruct (store_writable w) eqn:E; cbn [snd]; [now apply R_append | apply R_refl].
Qed.

Lemma keeps_store (file : ImageFile) (data : str) : keeps R (store file data).
Proof.
  unfold store.
  apply keeps_bind; [apply keeps_lift|]; intros already.
  apply keeps_if.
  - apply keeps_bind; [apply keeps_log | intros _; apply keeps_ret].
  - apply keeps_try_catch; [|intros e; apply keeps_exit].
    apply keeps_bind; [apply keeps_fs_appendFileSync_store_db|]; intros _.
    apply keeps_bind; [apply keeps_log | intros _; apply keeps_ret].
Qed.

Lemma keeps_flag_file (data : str) (stats : Stats) (file : ImageFile) :
  keeps R (flag_file data stats file).
Proof.
  unfold flag_file.
  apply keeps_bind; [apply keeps_lift|]; intros exists_.
  apply keeps_if.
  - apply keeps_bind; [apply keeps_store | intros save; apply keeps_ret].
  - apply keeps_bind; [apply keeps_log | intros _; apply keeps_ret].
Qed.

Lemma keeps_flag {A} (cfg : Config) (args : list str) : keeps R (@flag cfg A args).
Proof.
  unfold flag.
  apply keeps_bind; [apply keeps_preload|]; intros [[files stats] data].
  apply keeps_bind; [apply keeps_forEach; intros s a; apply keeps_flag_file|].
  intros stats'; apply keeps_exit.
Qed.

Lemma keeps_eval_call (cfg : Config) (command : str) (args : list str) :
  existsb (str_eqb command) declared = true ->
  keeps R (eval_call cfg command args).
Proof.
  unfold declared; cbn [existsb]; intros Hd; unfold eval_call.
  destruct (str_eqb command "flag"); [apply keeps_flag|].
  destruct (str_eqb command "check"); [apply keeps_check|].
  destruct (str_eqb command "help"); [apply keeps_help|].
  destruct (str_eqb command "exit"); [apply keeps_exit|].
  destruct (str_eqb command "log"); [apply keeps_log|].
  destruct (str_eqb command "validate");
    [apply keeps_bind; [apply keeps_lift | intros _; apply keeps_ret]|].
  destruct (str_eqb command "preload");
    [apply keeps_bind; [apply keeps_preload | intros _; apply keeps_ret]|].
  destruct (str_eqb command "store"); [apply keeps_lift|].
  destruct (str_eqb command "ImageFile"); [apply keeps_lift|].
  cbn [orb existsb] in *; rewrite Hd; apply keeps_lift.
Qed.

Lemma keeps_create_store :
  keeps R (present <- fs_existsSync_store_db ;;
           if negb present then fs_writeFileSync_store_db [] else ret tt).
Proof.
  intros w; unfold bind, fs_existsSync_store_db, fs_writeFileSync_store_db, ret.
  destruct (store_db w) eqn:E; cbn [negb snd]; [apply R_refl|].
  destruct (store_writable w) eqn:Ew; cbn [snd]; [now apply R_create | apply R_refl].
Qed.

Lemma keeps_main (cfg : Config) (argv : list str) :
  within_script argv = true -> keeps R (main cfg argv).
Proof.
  intros Hc w; rewrite main_cases.
  destruct argv as [|command args]; [apply keeps_exit|].
  destruct (existsb (str_eqb "--help") (command :: args)) eqn:Hh;
    [apply keeps_help|].
  pose proof (within_script_declared command args Hc Hh) as Hd.
  assert (K : keeps R (try_catch (eval_call cfg command args)
                         (fun err => exit ("Command not found: " +++ command) 2
                                       (Some err))))
    by (apply keeps_try_catch; [now apply keeps_eval_call | intros e; apply keeps_exit]).
  destruct (store_db w) as [d|] eqn:Ed; [apply K|].
  destruct (store_writable w) eqn:Ew; [|apply R_refl].
  eapply R_trans; [now apply R_create | apply K].
Qed.

Lemma keeps_run (cfg : Config) (argv : list str) (w : world) :
  within_script argv = true -> R w (snd (run cfg argv w)).
Proof.
  intros Hc; pose proof (@keeps_main cfg argv Hc w) as H.
  unfold run; destruct (main cfg argv w) as [[a|e|site n] w']; exact H.
Qed.

End Keeps.

(** * preload, read off the tree *)

Lemma new_ImageFile_eq (cfg : Config) (path : str) (w : world) :
  new_ImageFile cfg path w = (read_image cfg (tree w) path, w).
Proof.
  unfold new_ImageFile, read_image, bind, fs_readFileSync, lift, ret.
  destruct (tree w path) as [[content|items|]|]; try reflexivity.
  destruct (new_RegExp_flags (chunk_pattern cfg) "g"); reflexivity.
Qed.

Lemma read_image_no_Halt (cfg : Config) (tree : str -> option node) (path : str) :
  no_Halt (read_image cfg tree path).
Proof.
  unfold read_image.
  destruct (tree path) as [[content|items|]|]; try exact I.
  pose proof (no_Halt_new_RegExp_flags (chunk_pattern cfg) "g") as H.
  destruct (new_RegExp_flags (chunk_pattern cfg) "g"); [exact I | exact I | destruct H].
Qed.

Lemma forEach_collect (cfg : Config) (dir : str) (items : list str)
    (files : list ImageFile) (w : world) :
  forEach (fun files item =>
             ok <- lift (validate cfg (dir +++ "/" +++ item)) ;;
             if ok
             then f <- new_ImageFile cfg (dir +++ "/" +++ item) ;; ret (files ++ [f])
             else ret files)
          items files w
  = (collect cfg (tree w) dir items files, w).
Proof.
  revert files; induction items as [|item rest IH]; intros files;
    cbn [forEach collect]; [reflexivity|].
  unfold bind, lift, ret in *.
  destruct (validate cfg (dir +++ "/" +++ item)) as [[|]|e|site n]; try reflexivity.
  - rewrite new_ImageFile_eq.
    destruct (read_image cfg (tree w) (dir +++ "/" +++ item)); try reflexivity.
    apply IH.
  - apply IH.
Qed.

Lemma preload_eq (cfg : Config) (args : list str) (w : world) :
  preload cfg args w =
  match candidates cfg (tree w) args with
  | Ret [] => (Halt in_exit 1, logged exiting (logged no_files_line w))
  | Ret files =>
      match store_db w with
      | Some data => (Ret (files, mkStats 0 (List.length files), data), w)
      | None => (Throw (ENOENT "open" "store.db"), w)
      end
  | Throw e => (Throw e, w)
  | Halt site n => (Halt site n, w)
  end.
Proof.
  unfold preload, candidates.
  destruct args as [|path args]; cbn [hd_error hd]; [reflexivity|].
  unfold bind at 1, fs_statSync.
  destruct (tree w path) as [[content|items|]|] eqn:Et; [| | |reflexivity].
  - unfold bind, lift, ret.
    destruct (validate cfg path) as [[|]|e|site n]; try reflexivity.
    + rewrite new_ImageFile_eq.
      destruct (read_image cfg (tree w) path) as [f|e|site n]; try reflexivity.
      cbn [app List.length Nat.eqb]; unfold fs_readFileSync_store_db.
      destruct (store_db w); reflexivity.
    + cbn [List.length Nat.eqb]; rewrite exit_eq; reflexivity.
  - unfold bind at 1, bind at 1, fs_readdirSync; rewrite Et.
    rewrite forEach_collect.
    destruct (collect cfg (tree w) path items []) as [files|e|site n];
      try reflexivity.
    unfold bind, ret.
    destruct files as [|f files]; cbn [List.length Nat.eqb].
    + rewrite exit_eq; reflexivity.
    + unfold fs_readFileSync_store_db.
      destruct (store_db w); reflexivity.
  - unfold bind, ret; cbn [List.length Nat.eqb].
    rewrite exit_eq; reflexivity.
Qed.

(** * The loops of flag and check *)

Lemma set_store_db_store_writable (d : str) (w : world) :
  store_writable (set_store_db d w) = store_writable w.
Proof. reflexivity. Qed.

Lemma flagged_world_cons (data : str) (f : ImageFile) (files : list ImageFile)
    (w : world) :
  flagged_world data (f :: files) w
  = flagged_world data files
      (if includes data (base64 f)
       then logged (log_line ("File already exists in data store: " +++ filePath f)
                      0 None) w
       else logged (log_line ("File flagged: " +++ filePath f) 0 None)
              (set_store_db (store_text w ++ store_entry f) w)).
Proof. reflexivity. Qed.

Lemma new_files_cons (data : str) (f : ImageFile) (files : list ImageFile) :
  new_files data (f :: files)
  = if includes data (base64 f) then new_files data files
    else f :: new_files data files.
Proof. unfold new_files; cbn [filter]; now destruct (includes data (base64 f)). Qed.

Lemma checked_world_cons (partial : bool) (data : str) (f : ImageFile)
    (files : list ImageFile) (w : world) :
  checked_world partial data (f :: files) w
  = checked_world partial data files
      (logged (log_line ((if found_in partial data f
                          then "File found in data store: " : str
                          else "Did not find file in data store: " : str)
                         +++ filePath f) 0 None) w).
Proof. reflexivity. Qed.

Lemma flag_loop_eq (data : str) (files : list ImageFile) (stats : Stats) (w : world) :
  store_writable w = true ->
  forEach (flag_file data) files stats w
  = (Ret (mkStats (tally stats + List.length (new_files data files)) (total stats)),
     flagged_world data files w).
Proof.
  revert stats w; induction files as [|f files IH]; intros stats w Hw.
  - cbn; unfold ret; rewrite Nat.add_0_r; now destruct stats.
  - cbn [forEach]; unfold bind.
    rewrite flagged_world_cons, new_files_cons.
    destruct (includes data (base64 f)) eqn:Ei.
    + rewrite flag_file_known by exact Ei.
      now rewrite IH by (now rewrite logged_store_writable).
    + rewrite flag_file_new by assumption.
      rewrite IH by (now rewrite logged_store_writable).
      cbn [bump tally total List.length]; unfold store_entry.
      now rewrite Nat.add_succ_r.
Qed.

Lemma flagged_world_store_text (data : str) (files : list ImageFile) (w : world) :
  store_text (flagged_world data files w)
  = store_text w ++ List.concat (map store_entry (new_files data files)).
Proof.
  revert w; induction files as [|f files IH]; intros w.
  - cbn; now rewrite app_nil_r.
  - rewrite flagged_world_cons, new_files_cons, IH.
    destruct (includes data (base64 f)); cbn [map List.concat];
      rewrite logged_store_text; [reflexivity|].
    unfold store_text at 1; cbn [set_store_db store_db].
    now rewrite <- app_assoc.
Qed.

Lemma flagged_world_tree (data : str) (files : list ImageFile) (w : world) :
  tree (flagged_world data files w) = tree w.
Proof.
  revert w; induction files as [|f files IH]; intros w; [reflexivity|].
  rewrite flagged_world_cons, IH.
  destruct (includes data (base64 f)); now rewrite logged_tree.
Qed.

Lemma flagged_world_store_writable (data : str) (files : list ImageFile) (w : world) :
  store_writable (flagged_world data files w) = store_writable w.
Proof.
  revert w; induction files as [|f files IH]; intros w; [reflexivity|].
  rewrite flagged_world_cons, IH.
  destruct (includes data (base64 f)); now rewrite logged_store_writable.
Qed.

Lemma flagged_world_nothing_new (data : str) (files : list ImageFile) (w : world) :
  new_files data files = [] ->
  store_db (flagged_world data files w) = store_db w.
Proof.
  revert w; induction files as [|f files IH]; intros w; [reflexivity|].
  rewrite flagged_world_cons, new_files_cons.
  destruct (includes data (base64 f)); [|discriminate].
  intros H; rewrite IH by exact H; apply logged_store_db.
Qed.

Lemma check_file_eq (args : list str) (data : str) (stats : Stats) (f : ImageFile)
    (w : world) :
  existsb (str_eqb "--partial") args = false \/ chunks f <> None ->
  let partial := existsb (str_eqb "--partial") args in
  check_file args data stats f w
  = (Ret (if found_in partial data f then bump stats else stats),
     logged (log_line ((if found_in partial data f
                        then "File found in data store: " : str
                        else "Did not find file in data store: " : str)
                       +++ filePath f) 0 None) w).
Proof.
  intros H; cbv zeta; unfold check_file, found_in.
  set (partial := existsb (str_eqb "--partial") args) in *.
  unfold bind, lift, ret, existsInData; rewrite escaped_test_includes.
  destruct partial eqn:Ep; cbn [andb].
  - destruct H as [H|H]; [discriminate|].
    destruct (chunks f) as [l|] eqn:Ec; [|congruence].
    rewrite (chunksExistInData_existsb f data Ec).
    destruct (includes data (base64 f) || existsb (includes data) l);
      now rewrite log_eq.
  - rewrite !orb_false_r.
    destruct (includes data (base64 f)); now rewrite log_eq.
Qed.

Lemma check_loop_eq (args : list str) (data : str) (files : list ImageFile)
    (stats : Stats) (w : world) :
  existsb (str_eqb "--partial") args = false
  \/ Forall (fun f => chunks f <> None) files ->
  let partial := existsb (str_eqb "--partial") args in
  forEach (check_file args data) files stats w
  = (Ret (mkStats (tally stats + List.length (filter (found_in partial data) files))
            (total stats)),
     checked_world partial data files w).
Proof.
  intros H; cbv zeta.
  set (partial := existsb (str_eqb "--partial") args) in *.
  revert stats w; induction files as [|f files IH]; intros stats w.
  - cbn; unfold ret; rewrite Nat.add_0_r; now destruct stats.
  - cbn [forEach filter]; unfold bind; rewrite checked_world_cons.
    rewrite check_file_eq
      by (destruct H as [H|H]; [now left | right; now inversion H]).
    fold partial.
    rewrite IH by (destruct H as [H|H]; [now left | right; now inversion H]).
    destruct (found_in partial data f); cbn [bump tally total List.length];
      [now rewrite Nat.add_succ_r | reflexivity].
Qed.

Lemma checked_world_store_db (partial : bool) (data : str) (files : list ImageFile)
    (w : world) :
  store_db (checked_world partial data files w) = store_db w.
Proof.
  revert w; induction files as [|f files IH]; intros w; [reflexivity|].
  rewrite checked_world_cons, IH; apply logged_store_db.
Qed.

Lemma preload_outcome (cfg : Config) (args : list str) (w : world) :
  (exists files data,
     files <> [] /\ store_db w = Some data /\
     candidates cfg (tree w) args = Ret files /\
     preload cfg args w = (Ret (files, mkStats 0 (List.length files), data), w))
  \/ (exists e, preload cfg args w = (Throw e, w))
  \/ preload cfg args w = (Halt in_exit 1, logged exiting (logged no_files_line w)).
Proof.
  rewrite preload_eq.
  destruct (candidates cfg (tree w) args) as [[|f files]|e|site n] eqn:Ec.
  - now right; right.
  - destruct (store_db w) as [data|].
    + left; exists (f :: files), data; repeat split; discriminate.
    + right; left; eauto.
  - right; left; eauto.
  - exfalso; revert Ec; unfold candidates.
    destruct (hd_error args) as [path|]; [|discriminate].
    destruct (tree w path) as [[content|items|]|]; try discriminate.
    + pose proof (no_Halt_validate cfg path) as V.
      destruct (validate cfg path) as [[|]|?|? ?]; try discriminate; try destruct V.
      pose proof (read_image_no_Halt cfg (tree w) path) as I1.
      destruct (read_image cfg (tree w) path); try discriminate; destruct I1.
    + generalize (@nil ImageFile); induction items as [|item rest IH]; intros acc;
        cbn [collect]; [discriminate|].
      pose proof (no_Halt_validate cfg (path +++ "/" +++ item)) as V.
      destruct (validate cfg (path +++ "/" +++ item)) as [[|]|?|? ?];
        try discriminate; try destruct V; [|apply IH].
      pose proof (read_image_no_Halt cfg (tree w) (path +++ "/" +++ item)) as I1.
      destruct (read_image cfg (tree w) (path +++ "/" +++ item));
        try discriminate; [apply IH | destruct I1].
Qed.

(** * More of what the script does *)

(** X1.  preload never writes.  It ends in one of three ways: it returns
    at least one file, with tally 0, total the number of files and the text
    of store.db, and the world as it found it; it throws, the world as it
    found it; or, having found no accepted file, it logs the warning "No
    files with accepted extensions found" and ends the process in exit. *)
Theorem preload_ends_in_one_of_three_ways (cfg : Config) (args : list str) (w : world) :
  (exists files data,
     files <> [] /\ store_db w = Some data /\
     preload cfg args w = (Ret (files, mkStats 0 (List.length files), data), w))
  \/ (exists e, preload cfg args w = (Throw e, w))
  \/ preload cfg args w = (Halt in_exit 1, logged exiting (logged no_files_line w)).
Proof.
  destruct (preload_outcome cfg args w) as [(files & data & H1 & H2 & _ & H3) | H].
  - left; exists files, data; auto.
  - right; exact H.
Qed.

Lemma preload_Ret_inv (cfg : Config) (args : list str) (w w1 : world)
    (files : list ImageFile) (stats : Stats) (data : str) :
  preload cfg args w = (Ret (files, stats, data), w1) ->
  w1 = w /\ stats = mkStats 0 (List.length files) /\ files <> [] /\
  store_db w = Some data /\ candidates cfg (tree w) args = Ret files.
Proof.
  intros E.
  destruct (preload_outcome cfg args w)
    as [(files' & data' & H1 & H2 & H3 & H4) | [[e H] | H]];
    rewrite E in *; try discriminate.
  inversion H4; subst; auto.
Qed.

Lemma flag_batch_eq {A : Type} (cfg : Config) (args : list str) (w w1 : world)
    (files : list ImageFile) (stats : Stats) (data : str) :
  preload cfg args w = (Ret (files, stats, data), w1) ->
  store_writable w = true ->
  @flag cfg A args w
  = (Halt in_exit 1,
     logged exiting
       (logged (flag_complete (List.length (new_files data files)) (List.length files))
          (flagged_world data files w))).
Proof.
  intros E Hw.
  destruct (preload_Ret_inv cfg args w E) as (-> & -> & _).
  unfold flag, bind at 1; rewrite E.
  unfold bind at 1; rewrite flag_loop_eq by exact Hw.
  rewrite exit_eq; reflexivity.
Qed.

Lemma check_batch_eq {A : Type} (cfg : Config) (args : list str) (w w1 : world)
    (files : list ImageFile) (stats : Stats) (data : str) :
  preload cfg args w = (Ret (files, stats, data), w1) ->
  existsb (str_eqb "--partial") args = false
  \/ Forall (fun f => chunks f <> None) files ->
  @check cfg A args w
  = (Halt in_exit 1,
     logged exiting
       (logged (check_complete
                  (List.length (filter (found_in (existsb (str_eqb "--partial") args)
                                          data) files))
                  (List.length files))
          (checked_world (existsb (str_eqb "--partial") args) data files w))).
Proof.
  intros E H.
  destruct (preload_Ret_inv cfg args w E) as (-> & -> & _).
  unfold check, bind at 1; rewrite E.
  unfold bind at 1; rewrite check_loop_eq by exact H.
  rewrite exit_eq; reflexivity.
Qed.

(** X2.  flag of a batch, with a store that can be written.  When preload
    has returned the files and the store text, flag appends to store.db, in
    the order of the files, one entry (base64 and newline) for each file whose
    base64 text does not occur in that store text, and nothing else; it logs
    "Flag complete. Added k/n file(s)." with k the number of those files and n
    the number of all, and ends in exit; k is at most n. *)
Theorem flag_appends_an_entry_per_new_file
    (cfg : Config) (args : list str) (w w1 : world)
    (files : list ImageFile) (stats : Stats) (data : str) :
  preload cfg args w = (Ret (files, stats, data), w1) ->
  store_writable w = true ->
  @flag cfg unit args w
  = (Halt in_exit 1,
     logged exiting
       (logged (flag_complete (List.length (new_files data files)) (List.length files))
          (flagged_world data files w))) /\
  store_text (snd (@flag cfg unit args w))
  = data ++ List.concat (map store_entry (new_files data files)) /\
  List.length (new_files data files) <= List.length files.
Proof.
  intros E Hw.
  pose proof (flag_batch_eq (A := unit) cfg args w E Hw) as F.
  destruct (preload_Ret_inv cfg args w E) as (-> & -> & Hne & Hd & _).
  split; [exact F | split].
  - rewrite F; cbn [snd].
    rewrite !logged_store_text, flagged_world_store_text.
    unfold store_text; now rewrite Hd.
  - apply filter_length_le.
Qed.

Lemma flag_appends_an_entry_per_new_file_witness :
  store_text (snd (@flag config unit ["imgs" : str] sample_world))
  = "ABCD" +++ LF +++ "ABCD" +++ LF.
Proof.
  destruct (@flag_appends_an_entry_per_new_file config ["imgs" : str]
              sample_world sample_world
              [mkImageFile "imgs/a.png" "ABCD" (Some ["ABCD" : str]);
               mkImageFile "imgs/b.png" "ABCD" (Some ["ABCD" : str])]
              (mkStats 0 2) [] eq_refl eq_refl) as (_ & H & _).
  exact H.
Defined.

(** X3.  check of a batch in which no file has null chunks, or without
    --partial.  When preload has returned the files and the store text, check
    logs for each file, in order, "File found in data store" when its base64
    text, or with --partial one of its chunks, occurs in the store text and
    "Did not find file in data store" otherwise; it logs "Check complete.
    Found k/n file(s) matching in data store." with k the number of files
    found, at most n, and ends in exit. *)
Theorem check_reports_each_file_and_counts
    (cfg : Config) (args : list str) (w w1 : world)
    (files : list ImageFile) (stats : Stats) (data : str) :
  preload cfg args w = (Ret (files, stats, data), w1) ->
  existsb (str_eqb "--partial") args = false
  \/ Forall (fun f => chunks f <> None) files ->
  let partial := existsb (str_eqb "--partial") args in
  let k := List.length (filter (found_in partial data) files) in
  @check cfg unit args w
  = (Halt in_exit 1,
     logged exiting
       (logged (check_complete k (List.length files))
          (checked_world partial data files w))) /\
  k <= List.length files.
Proof.
  intros E H partial k.
  split; [|apply filter_length_le].
  apply (check_batch_eq (A := unit) cfg args w E H).
Qed.

Lemma check_reports_each_file_and_counts_witness :
  @check config unit ["imgs" : str; "--partial" : str] sample_world
  = (Halt in_exit 1,
     logged exiting
       (logged (check_complete 0 2)
          (logged (log_line "Did not find file in data store: imgs/b.png" 0 None)
             (logged (log_line "Did not find file in data store: imgs/a.png" 0 None)
                sample_world)))).
Proof.
  destruct (@check_reports_each_file_and_counts config
              ["imgs" : str; "--partial" : str] sample_world sample_world
              [mkImageFile "imgs/a.png" "ABCD" (Some ["ABCD" : str]);
               mkImageFile "imgs/b.png" "ABCD" (Some ["ABCD" : str])]
              (mkStats 0 2) [] eq_refl) as (H & _).
  - right; repeat constructor; discriminate.
  - exact H.
Defined.

(** X4.  No run that stays within the script (no command word, --help
    among the words, or a command word that index.js declares), whatever the
    world, removes or rewrites anything in the store: the text of store.db at
    the end is the text at the start with, at most, more text after it.  A
    command word of another kind is evaluated by the runtime and may do
    anything. *)
Theorem every_run_only_appends_to_the_store (cfg : Config) (argv : list str) (w : world) :
  within_script argv = true ->
  exists more : str, store_text (snd (run cfg argv w)) = store_text w ++ more.
Proof.
  intros Hc; revert Hc.
  apply (@keeps_run store_grown); unfold store_grown.
  - intros w0; exists []; now rewrite app_nil_r.
  - intros w1 w2 w3 [m1 H1] [m2 H2]; exists (m1 ++ m2).
    now rewrite H2, H1, app_assoc.
  - intros e w0; exists []; now rewrite app_nil_r.
  - intros l w0; exists []; now rewrite app_nil_r.
  - intros d w0 _; exists d; reflexivity.
  - intros w0 Hn _; exists []; unfold store_text; cbn [set_store_db store_db].
    now rewrite Hn.
Qed.

(** X5.  With a store that cannot be written, no run that stays within the
    script (no command word, --help among the words, or a command word that
    index.js declares) changes store.db: a store that is missing stays
    missing, a store that exists keeps its text. *)
Theorem unwritable_store_is_left_as_it_is (cfg : Config) (argv : list str) (w : world) :
  within_script argv = true ->
  store_writable w = false ->
  store_db (snd (run cfg argv w)) = store_db w.
Proof.
  intros Hc Hw.
  apply (@keeps_run store_locked); unfold store_locked; try exact Hw; try exact Hc.
  - auto.
  - intros w1 w2 w3 H12 H23 H1.
    destruct (H12 H1) as [E1 W2]; destruct (H23 W2) as [E2 W3].
    split; [now rewrite E2 | exact W3].
  - auto.
  - auto.
  - intros d w0 Ht Hf; congruence.
  - intros w0 _ Ht Hf; congruence.
Qed.

(** X6.  --help anywhere among the arguments wins over every command: the
    run prints the one help text chosen by the first argument and ends with
    status 1 in help; nothing is flagged or checked, nothing is written to
    logs.log, and store.db is not even created. *)
Theorem help_wins_over_every_command (cfg : Config) (argv : list str) (w : world) :
  existsb (str_eqb "--help") argv = true ->
  run cfg argv w
  = (Exited in_help 1, add_console (console_info (help_text (hd_error argv))) w).
Proof.
  intros H; unfold run, main.
  destruct argv as [|c args]; [discriminate H|].
  cbn [List.length Nat.eqb]; rewrite H.
  reflexivity.
Qed.

(** X7.  A path that does not exist is reported as a command that was not
    found.  flag or check of a missing path, with an existing store, logs the
    critical message "Command not found: flag" (or check) with the ENOENT
    text of statSync under it, logs "Exiting..." and ends with status 1; the
    store is not touched. *)
Theorem missing_path_is_reported_as_command_not_found
    (cfg : Config) (command path : str) (rest : list str) (d : str) (w : world) :
  command = ("flag" : str) \/ command = ("check" : str) ->
  existsb (str_eqb "--help") (command :: path :: rest) = false ->
  tree w path = None ->
  store_db w = Some d ->
  run cfg (command :: path :: rest) w
  = (Exited in_exit 1,
     logged exiting
       (logged (log_line ("Command not found: " +++ command) 2 (Some (ENOENT "stat" path)))
          w)).
Proof.
  intros Hc Hh Ht Hd.
  assert (P : preload cfg (path :: rest) w = (Throw (ENOENT "stat" path), w)).
  { rewrite preload_eq; unfold candidates; cbn [hd_error]; now rewrite Ht. }
  unfold run, main; cbn [List.length Nat.eqb hd tl]; rewrite Hh.
  unfold bind at 1, ret at 1.
  unfold bind at 1, ret at 1.
  unfold bind at 1, fs_existsSync_store_db; rewrite Hd; cbn [negb].
  unfold bind at 1, ret at 1.
  unfold try_catch.
  destruct Hc as [-> | ->].
  - rewrite eval_call_flag; unfold flag, bind at 1; rewrite P.
    rewrite exit_eq; reflexivity.
  - rewrite eval_call_check; unfold check, bind at 1; rewrite P.
    rewrite exit_eq; reflexivity.
Qed.

(** X8.  With the configuration of the script, validate never throws and
    accepts a path exactly when jpg, jpeg or png occurs somewhere in it: at
    its end, in the middle of the file name, or in the name of a directory on
    the way. *)
Theorem validate_accepts_a_path_that_holds_an_extension (path : str) :
  validate config path = Ret (holds_extension path) /\
  (validate config path = Ret true <->
   substring_of "jpg" path \/ substring_of "jpeg" path \/ substring_of "png" path).
Proof.
  rewrite validate_config; fold (holds_extension path).
  split; [reflexivity|].
  unfold holds_extension.
  rewrite <- !includes_spec.
  split.
  - intros H; injection H as H'.
    apply orb_prop in H' as [H'|H']; [|auto].
    apply orb_prop in H' as [H'|H']; auto.
  - intros [H | [H | H]]; rewrite H, ?orb_true_r; reflexivity.
Qed.

Lemma read_image_File (cfg : Config) (tree : str -> option node) (path : str)
    (content : list Byte.byte) :
  1 <= partialChunks cfg ->
  tree path = Some (File content) ->
  exists image,
    read_image cfg tree path = Ret image /\ filePath image = path /\
    base64 image = base64_encode content.
Proof.
  intros Hn Ht; unfold read_image.
  rewrite Ht, new_RegExp_chunk_pattern by exact Hn.
  eexists; repeat split.
Qed.

Lemma collect_everything (cfg : Config) (tree : str -> option node) (dir : str)
    (items : list str) (acc : list ImageFile) :
  1 <= partialChunks cfg ->
  (forall item, In item items ->
     validate cfg (dir +++ "/" +++ item) = Ret true /\
     exists content, tree (dir +++ "/" +++ item) = Some (File content)) ->
  exists files,
    collect cfg tree dir items acc = Ret (acc ++ files) /\
    map filePath files = map (fun item => dir +++ "/" +++ item) items.
Proof.
  intros Hn; revert acc; induction items as [|item rest IH]; intros acc H.
  - exists []; cbn; now rewrite app_nil_r.
  - destruct (H item (or_introl eq_refl)) as [Hv [content Hc]].
    destruct (read_image_File cfg tree (dir +++ "/" +++ item) Hn Hc)
      as (image & Hi & Hp & _).
    destruct (IH (acc ++ [image])) as (files & Hf & Hm);
      [intros i Hin; apply H; now right|].
    exists (image :: files); cbn [collect map].
    rewrite Hv, Hi, Hf, Hp, Hm, <- app_assoc; split; reflexivity.
Qed.

(** X9.  When jpg, jpeg or png occurs in the path of the directory itself,
    every entry of the directory is accepted, whatever its name: with entries
    that are all readable files, preload returns one image per entry, in the
    order of the listing. *)
Theorem directory_path_with_extension_accepts_every_entry
    (dir : str) (items : list str) (data : str) (w : world) :
  holds_extension dir = true ->
  tree w dir = Some (Directory items) ->
  items <> [] ->
  (forall item, In item items ->
     exists content, tree w (dir +++ "/" +++ item) = Some (File content)) ->
  store_db w = Some data ->
  exists files,
    preload config [dir] w = (Ret (files, mkStats 0 (List.length items), data), w) /\
    map filePath files = map (fun item => dir +++ "/" +++ item) items.
Proof.
  intros He Ht Hne Hf Hd.
  assert (V : forall item, validate config (dir +++ "/" +++ item) = Ret true).
  { intros item; rewrite validate_config.
    f_equal; unfold holds_extension in He.
    apply orb_prop in He as [He|He]; [apply orb_prop in He as [He|He]|].
    - now rewrite (@includes_app_r dir ("/" +++ item) _ He).
    - now rewrite (@includes_app_r dir ("/" +++ item) _ He), orb_true_r.
    - now rewrite (@includes_app_r dir ("/" +++ item) _ He), orb_true_r. }
  destruct (@collect_everything config (tree w) dir items [])
    as (files & Hc & Hm); [cbn; lia | intros item Hin; split; [apply V | now apply Hf]|].
  exists files; split; [|exact Hm].
  rewrite preload_eq; unfold candidates; cbn [hd_error]; rewrite Ht, Hc.
  cbn [app].
  assert (L : List.length files = List.length items)
    by (rewrite <- (length_map filePath), Hm; apply length_map).
  destruct files as [|f files]; [destruct items; [congruence | discriminate L]|].
  now rewrite Hd, L.
Qed.

Lemma directory_path_with_extension_accepts_every_entry_witness :
  let w := mkWorld (fun p => if str_eqb p "pngs" then Some (Directory ["readme.txt" : str])
                             else if str_eqb p "pngs/readme.txt"
                                  then Some (File [Byte.x68; Byte.x69])
                                  else None)
             (Some []) true [] true [] in
  exists files,
    preload config ["pngs" : str] w = (Ret (files, mkStats 0 1, []), w) /\
    map filePath files = ["pngs/readme.txt" : str].
Proof.
  intros w.
  apply (@directory_path_with_extension_accepts_every_entry "pngs"
           ["readme.txt" : str] [] w).
  - reflexivity.
  - reflexivity.
  - discriminate.
  - intros item [<- | []]; eexists; reflexivity.
  - reflexivity.
Defined.

(** * Images the constructor builds *)

Lemma new_RegExp_chunk_pattern_0 (cfg : Config) :
  partialChunks cfg = 0 ->
  new_RegExp_flags (chunk_pattern cfg) "g"
  = Throw (SyntaxError (chunk_pattern cfg) "g" numbers_out_of_order).
Proof. intros H; unfold chunk_pattern; rewrite H; reflexivity. Qed.

(** X10.  The constructor of ImageFile on a readable file, with a chunk
    length of at least 1: it returns, the world untouched, an image with the
    path, the base64 text of the content (characters of the base64 alphabet
    and = only) and the chunks; the chunks are null when the file has no
    bytes, and otherwise ceil(L/n) pieces that make up the base64 text again,
    all of n characters but the last, which has L - n * (ceil(L/n) - 1). *)
Theorem constructor_of_a_readable_file
    (cfg : Config) (path : str) (content : list Byte.byte) (w : world) :
  1 <= partialChunks cfg ->
  tree w path = Some (File content) ->
  exists image,
    new_ImageFile cfg path w = (Ret image, w) /\
    filePath image = path /\
    base64 image = base64_encode content /\
    is_base64 (base64 image) /\
    (content = [] -> chunks image = None) /\
    (content <> [] ->
     exists l,
       chunks image = Some l /\
       List.concat l = base64 image /\
       List.length l
       = (List.length (base64 image) + partialChunks cfg - 1) / partialChunks cfg /\
       Forall (fun piece => List.length piece = partialChunks cfg) (removelast l) /\
       List.length (last l [])
       = List.length (base64 image) - partialChunks cfg * (List.length l - 1)).
Proof.
  intros Hn Ht.
  eexists; split; [apply (new_ImageFile_File cfg path w Hn Ht)|].
  cbn [filePath base64 chunks].
  repeat split.
  - apply base64_encode_is_base64.
  - now intros ->.
  - intros Hc.
    assert (Hb : base64_encode content <> [])
      by (now rewrite base64_encode_nil_iff).
    destruct (@slices_piece_lengths (partialChunks cfg)
                (List.length (base64_encode content)) (base64_encode content))
      as [P1 P2]; auto.
    exists (slices (List.length (base64_encode content)) (partialChunks cfg)
              (base64_encode content)).
    repeat split; auto using slices_concat, slices_length.
    destruct (base64_encode content); [congruence | reflexivity].
Qed.

Lemma constructor_of_a_readable_file_witness :
  exists image,
    new_ImageFile config "imgA.png" sample_world = (Ret image, sample_world) /\
    base64 image = ("ABCD" : str).
Proof.
  destruct (@constructor_of_a_readable_file config "imgA.png"
              [Byte.x00; Byte.x10; Byte.x83] sample_world)
    as (image & H1 & _ & H3 & _).
  - cbn [partialChunks config]; lia.
  - reflexivity.
  - exists image; split; [exact H1 | exact H3].
Defined.

(** X11.  With a configured chunk length of 0 the constructor builds no
    image at all: the chunk pattern [.{1,0}] is a SyntaxError, "Invalid
    regular expression: /.{1,0}/g: numbers out of order in {} quantifier",
    thrown for every readable file, before any test against the store. *)
Theorem chunk_length_0_makes_the_constructor_throw
    (cfg : Config) (path : str) (content : list Byte.byte) (w : world) :
  partialChunks cfg = 0 ->
  tree w path = Some (File content) ->
  new_ImageFile cfg path w
  = (Throw (SyntaxError (chunk_pattern cfg) "g" numbers_out_of_order), w) /\
  error_toString (SyntaxError (chunk_pattern cfg) "g" numbers_out_of_order)
  = "SyntaxError: Invalid regular expression: /.{1,0}/g: numbers out of order in {} quantifier".
Proof.
  intros H0 Ht; split.
  - rewrite new_ImageFile_eq; unfold read_image.
    now rewrite Ht, new_RegExp_chunk_pattern_0.
  - unfold chunk_pattern; rewrite H0; reflexivity.
Qed.

Lemma chunk_length_0_makes_the_constructor_throw_witness :
  new_ImageFile (mkConfig "jpg|jpeg|png" 0) "imgA.png" sample_world
  = (Throw (SyntaxError ".{1,0}" "g" numbers_out_of_order), sample_world).
Proof.
  apply (@chunk_length_0_makes_the_constructor_throw (mkConfig "jpg|jpeg|png" 0)
           "imgA.png" [Byte.x00; Byte.x10; Byte.x83] sample_world);
    reflexivity.
Defined.

Lemma new_ImageFile_Ret_inv (cfg : Config) (path : str) (w w' : world)
    (image : ImageFile) :
  new_ImageFile cfg path w = (Ret image, w') ->
  1 <= partialChunks cfg /\ exists content, tree w path = Some (File content).
Proof.
  rewrite new_ImageFile_eq; unfold read_image.
  destruct (tree w path) as [[content|items|]|]; try discriminate.
  destruct (partialChunks cfg) as [|n] eqn:En.
  - now rewrite new_RegExp_chunk_pattern_0.
  - intros _; split; [lia | eauto].
Qed.

Lemma substring_of_trans (a b c : str) :
  substring_of a b -> substring_of b c -> substring_of a c.
Proof.
  intros (p1 & q1 & ->) (p2 & q2 & ->).
  exists (p2 ++ p1), (q1 ++ q2); now rewrite <- !app_assoc.
Qed.

Lemma firstn_substring (n : nat) (s : str) : substring_of (firstn n s) s.
Proof. exists [], (skipn n s); cbn [app]; now rewrite firstn_skipn. Qed.

(** X12.  For an image the constructor has built from a file that is not
    empty, the exact match implies the partial one: when existsInData is true
    against a store text, so is chunksExistInData. *)
Theorem exact_match_implies_partial_match
    (cfg : Config) (path : str) (w w' : world) (image : ImageFile) (data : str) :
  new_ImageFile cfg path w = (Ret image, w') ->
  base64 image <> [] ->
  existsInData image data = Ret true ->
  chunksExistInData image data = Ret true.
Proof.
  intros E Hb Hx.
  destruct (new_ImageFile_Ret_inv cfg path w E) as (Hn & content & Ht).
  rewrite (new_ImageFile_File cfg path w Hn Ht) in E.
  inversion E; subst image w'; clear E; cbn [base64] in *.
  unfold existsInData in Hx; cbn [base64] in Hx.
  rewrite escaped_test_includes in Hx; injection Hx as Hx.
  destruct (base64_encode content) as [|a t] eqn:Eb; [congruence|].
  erewrite chunksExistInData_existsb by reflexivity.
  f_equal; cbn [slices List.length existsb].
  apply orb_true_intro; left.
  apply includes_spec.
  apply (substring_of_trans (firstn_substring (partialChunks cfg) (a :: t))).
  now apply includes_spec.
Qed.

Lemma exact_match_implies_partial_match_witness :
  chunksExistInData (mkImageFile "imgA.png" "ABCD" (Some ["ABCD" : str]))
    ("xxABCDxx" : str) = Ret true.
Proof.
  apply (@exact_match_implies_partial_match config "imgA.png" sample_world
           sample_world (mkImageFile "imgA.png" "ABCD" (Some ["ABCD" : str]))
           "xxABCDxx");
    [reflexivity | discriminate | reflexivity].
Defined.

(** X13.  When the base64 text of a file that is not empty is no longer
    than the chunk length, the constructor makes one chunk, the whole text,
    and --partial adds nothing: chunksExistInData answers what existsInData
    answers, against every store text. *)
Theorem short_image_partial_match_is_exact_match
    (cfg : Config) (path : str) (w w' : world) (image : ImageFile) (data : str) :
  new_ImageFile cfg path w = (Ret image, w') ->
  base64 image <> [] ->
  List.length (base64 image) <= partialChunks cfg ->
  chunks image = Some [base64 image] /\
  chunksExistInData image data = existsInData image data.
Proof.
  intros E Hb Hl.
  destruct (new_ImageFile_Ret_inv cfg path w E) as (Hn & content & Ht).
  rewrite (new_ImageFile_File cfg path w Hn Ht) in E.
  inversion E; subst image w'; clear E; cbn [base64 chunks] in *.
  destruct (base64_encode content) as [|a t] eqn:Eb; [congruence|].
  assert (C : slices (List.length (a :: t)) (partialChunks cfg) (a :: t) = [a :: t]).
  { cbn [List.length slices].
    rewrite firstn_all2, skipn_all2 by exact Hl.
    now destruct (List.length t). }
  rewrite C; split; [reflexivity|].
  erewrite chunksExistInData_existsb by reflexivity.
  unfold existsInData; cbn [base64 existsb].
  now rewrite escaped_test_includes, orb_false_r.
Qed.

Lemma short_image_partial_match_is_exact_match_witness :
  chunksExistInData (mkImageFile "imgA.png" "ABCD" (Some ["ABCD" : str])) ("AB" : str)
  = existsInData (mkImageFile "imgA.png" "ABCD" (Some ["ABCD" : str])) ("AB" : str).
Proof.
  destruct (@short_image_partial_match_is_exact_match config "imgA.png" sample_world
              sample_world (mkImageFile "imgA.png" "ABCD" (Some ["ABCD" : str]))
              "AB") as [_ H].
  - reflexivity.
  - discriminate.
  - cbn [base64 List.length partialChunks config lit list_ascii_of_string]; lia.
  - exact H.
Defined.

(** * Entries of the store *)

Lemma base64_has_no_newline (b : str) : is_base64 b -> ~ In "010"%char b.
Proof.
  intros Hb Hin.
  apply is_base64_no_line_terminator in Hb.
  unfold no_line_terminator in Hb; rewrite Forall_forall in Hb.
  specialize (Hb _ Hin); discriminate Hb.
Qed.

Lemma substring_of_across_newline (b x y : str) :
  ~ In "010"%char b -> b <> [] ->
  substring_of b (x ++ "010"%char :: y) <-> substring_of b x \/ substring_of b y.
Proof.
  intros Hn Hb; split.
  - intros (pre & post & E).
    apply app_eq_app in E as [l [[E1 E2] | [E1 E2]]].
    + apply app_eq_app in E2 as [l' [[E3 E4] | [E3 E4]]].
      * destruct l' as [|c l'].
        -- left; exists pre, []; subst; now rewrite !app_nil_r.
        -- exfalso; apply Hn; cbn in E4; inversion E4; subst.
           apply in_or_app; right; now left.
      * left; exists pre, l'; subst; reflexivity.
    + destruct l as [|c l]; cbn in E2.
      * exfalso; destruct b as [|c b]; [congruence|].
        apply Hn; inversion E2; now left.
      * right; inversion E2; subst; now exists l, post.
  - intros [H | H].
    + now apply substring_of_app_r.
    + apply substring_of_app_l; now apply (substring_of_app_l ["010"%char]).
Qed.

Lemma substring_of_nil_r (b : str) : b <> [] -> ~ substring_of b [].
Proof.
  intros Hb (pre & post & E); destruct pre; [destruct b|]; cbn in E; congruence.
Qed.

Lemma split_lines_hold (b d current : str) :
  ~ In "010"%char b -> b <> [] ->
  (exists line, In line (split_lines current d) /\ substring_of b line)
  <-> substring_of b (current ++ d).
Proof.
  intros Hn Hb; revert current; induction d as [|c d IH]; intros current.
  - cbn [split_lines]; rewrite app_nil_r.
    destruct current as [|a current].
    + split; [intros (line & [] & _) | intros H; now apply substring_of_nil_r in H].
    + split; [intros (line & [<- | []] & H); exact H | intros H; eexists; split; [now left | exact H]].
  - cbn [split_lines].
    destruct (Ascii.eqb c "010") eqn:Ec.
    + apply Ascii.eqb_eq in Ec; subst c.
      rewrite substring_of_across_newline by assumption.
      specialize (IH []); cbn [app] in IH; rewrite <- IH.
      split.
      * intros (line & [<- | Hin] & H); [now left | right; eauto].
      * intros [H | (line & Hin & H)];
          [exists current; split; [now left | exact H]
          | exists line; split; [now right | exact H]].
    + rewrite IH, <- app_assoc; reflexivity.
Qed.

(** X14.  A match never runs across two entries of the store.  For an image
    whose base64 text is not empty (base64 text holds no newline),
    existsInData is true against a store text exactly when the base64 text
    occurs within one of its lines. *)
Theorem exact_match_lies_within_one_line (X : ImageFile) (data : str) :
  is_base64 (base64 X) -> base64 X <> [] ->
  (existsInData X data = Ret true <->
   exists line, In line (split_lines [] data) /\ substring_of (base64 X) line).
Proof.
  intros Hb Hne.
  rewrite (@split_lines_hold (base64 X) data [])
    by (auto using base64_has_no_newline).
  cbn [app]; unfold existsInData; rewrite escaped_test_includes, <- includes_spec.
  split; [intros H; now injection H | now intros ->].
Qed.

Lemma exact_match_lies_within_one_line_witness :
  existsInData (mkImageFile "imgA.png" "ABCD" (Some ["ABCD" : str]))
    ("xxAB" +++ LF +++ "CDxx" +++ LF) = Ret true <->
  exists line,
    In line (split_lines [] ("xxAB" +++ LF +++ "CDxx" +++ LF)) /\
    substring_of ("ABCD" : str) line.
Proof.
  apply (@exact_match_lies_within_one_line
           (mkImageFile "imgA.png" "ABCD" (Some ["ABCD" : str]))
           ("xxAB" +++ LF +++ "CDxx" +++ LF)).
  - exact (base64_encode_is_base64 [Byte.x00; Byte.x10; Byte.x83]).
  - discriminate.
Defined.

(** * flag and then flag or check again *)

Lemma includes_entry_of_new_file (data : str) (files : list ImageFile) (f : ImageFile) :
  In f files ->
  includes (data ++ List.concat (map store_entry (new_files data files))) (base64 f)
  = true.
Proof.
  intros Hin.
  destruct (includes data (base64 f)) eqn:Ei; [now apply includes_app_r|].
  assert (Hnew : In f (new_files data files))
    by (apply filter_In; split; [exact Hin | now rewrite Ei]).
  apply in_split in Hnew as (l1 & l2 & ->).
  rewrite map_app, concat_app; cbn [map List.concat]; unfold store_entry at 2.
  apply includes_app_l, includes_app_l.
  rewrite <- !app_assoc.
  apply (includes_self_app [] (base64 f)).
Qed.

Lemma new_files_none (data : str) (files : list ImageFile) :
  (forall f, In f files -> includes data (base64 f) = true) ->
  new_files data files = [].
Proof.
  induction files as [|f files IH]; intros H; [reflexivity|].
  rewrite new_files_cons, (H f (or_introl eq_refl)).
  apply IH; intros g Hg; apply H; now right.
Qed.

Lemma found_in_all (partial : bool) (data : str) (files : list ImageFile) :
  (forall f, In f files -> includes data (base64 f) = true) ->
  filter (found_in partial data) files = files.
Proof.
  induction files as [|f files IH]; intros H; [reflexivity|].
  cbn [filter]; unfold found_in at 1; rewrite (H f (or_introl eq_refl)).
  cbn [orb]; f_equal; apply IH; intros g Hg; apply H; now right.
Qed.

Lemma flagged_world_store_db (data : str) (files : list ImageFile) (w : world) (d : str) :
  store_db w = Some d ->
  store_db (flagged_world data files w) = Some (store_text (flagged_world data files w)).
Proof.
  revert w d; induction files as [|f files IH]; intros w d Hd.
  - cbn; unfold store_text; now rewrite Hd.
  - rewrite flagged_world_cons.
    destruct (includes data (base64 f)).
    + apply (IH _ d); now rewrite logged_store_db.
    + eapply IH; rewrite logged_store_db; reflexivity.
Qed.

(** The world a completed flag leaves, seen by an invocation that reads the
    same files again: a store that can be written and that holds the base64
    text of every file of the batch. *)
Lemma after_flag (cfg : Config) (args : list str) (w w0 w2 : world)
    (files : list ImageFile) (stats stats1 : Stats) (data data1 : str) :
  preload cfg args w = (Ret (files, stats, data), w0) ->
  store_writable w = true ->
  let w1 := snd (@flag cfg unit args w) in
  preload cfg args w1 = (Ret (files, stats1, data1), w2) ->
  data1 = store_text w1 /\
  store_writable w1 = true /\
  (forall f, In f files -> includes (store_text w1) (base64 f) = true).
Proof.
  intros E Hw w1 E1.
  pose proof (flag_batch_eq (A := unit) cfg args w E Hw) as F.
  destruct (preload_Ret_inv cfg args w E) as (-> & -> & Hne & Hd & Hc).
  destruct (preload_Ret_inv cfg args w1 E1) as (_ & _ & _ & Hd1 & _).
  assert (S1 : store_text w1
               = data ++ List.concat (map store_entry (new_files data files))).
  { unfold w1; rewrite F; cbn [snd].
    rewrite !logged_store_text, flagged_world_store_text.
    unfold store_text; now rewrite Hd. }
  repeat split.
  - unfold store_text; now rewrite Hd1.
  - unfold w1; now rewrite flag_keeps_store_writable.
  - intros f Hin; rewrite S1; now apply includes_entry_of_new_file.
Qed.

(** X15.  Flagging the same batch again appends nothing.  After a flag that
    has run to its end with a store that can be written, take a next flag
    with the same arguments that reads the same files again: the batch has
    not changed in between (in particular it does not hold store.db or
    logs.log themselves, which the first run has written to).  It finds every
    file of the batch in the store: it logs "Flag complete. Added 0/n
    file(s)." and leaves store.db as it found it. *)
Theorem second_flag_of_a_batch_appends_nothing
    (cfg : Config) (args : list str) (w w0 w2 : world)
    (files : list ImageFile) (stats stats1 : Stats) (data data1 : str) :
  preload cfg args w = (Ret (files, stats, data), w0) ->
  store_writable w = true ->
  let w1 := snd (@flag cfg unit args w) in
  preload cfg args w1 = (Ret (files, stats1, data1), w2) ->
  @flag cfg unit args w1
  = (Halt in_exit 1,
     logged exiting
       (logged (flag_complete 0 (List.length files))
          (flagged_world (store_text w1) files w1))) /\
  store_db (snd (@flag cfg unit args w1)) = store_db w1.
Proof.
  intros E Hw w1 E1.
  destruct (after_flag cfg args w E Hw E1) as (D1 & W1 & I1); fold w1 in D1, W1, I1.
  subst data1.
  pose proof (flag_batch_eq (A := unit) cfg args w1 E1 W1) as F.
  rewrite (new_files_none _ _ I1) in F; cbn [List.length] in F.
  split; [exact F|].
  rewrite F; cbn [snd]; rewrite !logged_store_db.
  apply flagged_world_nothing_new, new_files_none, I1.
Qed.

Lemma second_flag_of_a_batch_appends_nothing_witness :
  let files := [mkImageFile "imgs/a.png" "ABCD" (Some ["ABCD" : str]);
                mkImageFile "imgs/b.png" "ABCD" (Some ["ABCD" : str])] in
  let w1 := snd (@flag config unit ["imgs" : str] sample_world) in
  @flag config unit ["imgs" : str] w1
  = (Halt in_exit 1,
     logged exiting
       (logged (flag_complete 0 (List.length files))
          (flagged_world (store_text w1) files w1))) /\
  store_db (snd (@flag config unit ["imgs" : str] w1)) = store_db w1.
Proof.
  intros files.
  assert (E1 : preload config ["imgs" : str]
                 (snd (@flag config unit ["imgs" : str] sample_world))
               = (Ret (files, mkStats 0 2, "ABCD" +++ LF +++ "ABCD" +++ LF),
                  snd (@flag config unit ["imgs" : str] sample_world)))
    by (vm_compute; reflexivity).
  exact (@second_flag_of_a_batch_appends_nothing config ["imgs" : str]
           sample_world sample_world
           (snd (@flag config unit ["imgs" : str] sample_world)) files
           (mkStats 0 2) (mkStats 0 2) [] ("ABCD" +++ LF +++ "ABCD" +++ LF)
           eq_refl eq_refl E1).
Defined.

(** X16.  What flag has stored, check finds.  After a flag that has run to
    its end with a store that can be written, take a check with the same
    arguments (without --partial, or with no file of null chunks in the
    batch) that reads the same files again: the batch has not changed in
    between (in particular it does not hold store.db or logs.log
    themselves).  It reports every file as found: "Check complete. Found n/n
    file(s) matching in data store." *)
Theorem check_after_flag_finds_every_file
    (cfg : Config) (args : list str) (w w0 w2 : world)
    (files : list ImageFile) (stats stats1 : Stats) (data data1 : str) :
  preload cfg args w = (Ret (files, stats, data), w0) ->
  store_writable w = true ->
  existsb (str_eqb "--partial") args = false
  \/ Forall (fun f => chunks f <> None) files ->
  let w1 := snd (@flag cfg unit args w) in
  preload cfg args w1 = (Ret (files, stats1, data1), w2) ->
  @check cfg unit args w1
  = (Halt in_exit 1,
     logged exiting
       (logged (check_complete (List.length files) (List.length files))
          (checked_world (existsb (str_eqb "--partial") args) (store_text w1)
             files w1))).
Proof.
  intros E Hw Hp w1 E1.
  destruct (after_flag cfg args w E Hw E1) as (D1 & W1 & I1); fold w1 in D1, W1, I1.
  subst data1.
  rewrite (check_batch_eq (A := unit) cfg args w1 E1 Hp).
  now rewrite (found_in_all _ _ _ I1).
Qed.

Lemma check_after_flag_finds_every_file_witness :
  let files := [mkImageFile "imgs/a.png" "ABCD" (Some ["ABCD" : str]);
                mkImageFile "imgs/b.png" "ABCD" (Some ["ABCD" : str])] in
  let w1 := snd (@flag config unit ["imgs" : str] sample_world) in
  @check config unit ["imgs" : str] w1
  = (Halt in_exit 1,
     logged exiting
       (logged (check_complete (List.length files) (List.length files))
          (checked_world (existsb (str_eqb "--partial") ["imgs" : str])
             (store_text w1) files w1))).
Proof.
  intros files.
  assert (E1 : preload config ["imgs" : str]
                 (snd (@flag config unit ["imgs" : str] sample_world))
               = (Ret (files, mkStats 0 2, "ABCD" +++ LF +++ "ABCD" +++ LF),
                  snd (@flag config unit ["imgs" : str] sample_world)))
    by (vm_compute; reflexivity).
  exact (@check_after_flag_finds_every_file config ["imgs" : str]
           sample_world sample_world
           (snd (@flag config unit ["imgs" : str] sample_world)) files
           (mkStats 0 2) (mkStats 0 2) [] ("ABCD" +++ LF +++ "ABCD" +++ LF)
           eq_refl eq_refl (or_introl eq_refl) E1).
Defined.

(** * When flag fails *)

Lemma flag_file_never_throws (data : str) (stats : Stats) (f : ImageFile) (w : world) :
  forall e w', flag_file data stats f w <> (Throw e, w').
Proof.
  intros e w'.
  destruct (includes data (base64 f)) eqn:Ei.
  - now rewrite flag_file_known.
  - destruct (store_writable w) eqn:Ew.
    + now rewrite flag_file_new.
    + now rewrite flag_file_unwritable.
Qed.

Lemma flag_loop_never_throws (data : str) (files : list ImageFile) (stats : Stats)
    (w : world) :
  forall e w', forEach (flag_file data) files stats w <> (Throw e, w').
Proof.
  revert stats w; induction files as [|f files IH]; intros stats w e w';
    cbn [forEach]; [discriminate|].
  unfold bind.
  pose proof (flag_file_never_throws data stats f w) as H.
  destruct (flag_file data stats f w) as [[s|e0|site n] w1];
    [apply IH | now specialize (H e0 w1) | discriminate].
Qed.

(** X17.  flag throws only before its loop.  When a call of flag ends with
    an exception (the one the top level reports as "Command not found"), the
    world is exactly as it was: nothing has been stored and nothing logged.
    In its loop flag does not throw: a failure to append is caught and ends
    the process in exit. *)
Theorem flag_throws_only_before_touching_anything
    (cfg : Config) (args : list str) (w w' : world) (e : error) :
  @flag cfg unit args w = (Throw e, w') -> w' = w.
Proof.
  unfold flag, bind at 1.
  destruct (preload_outcome cfg args w)
    as [(files & data & _ & _ & _ & ->) | [[e0 ->] | ->]].
  - unfold bind.
    pose proof (flag_loop_never_throws data files (mkStats 0 (List.length files)) w)
      as H.
    destruct (forEach (flag_file data) files _ w) as [[s|e1|site n] w1].
    + rewrite exit_eq; discriminate.
    + now specialize (H e1 w1).
    + discriminate.
  - now inversion 1.
  - discriminate.
Qed.

Lemma flag_throws_only_before_touching_anything_witness :
  @flag config unit ["nowhere.png" : str] sample_world
  = (Throw (ENOENT "stat" "nowhere.png"), sample_world).
Proof.
  assert (E : exists w', @flag config unit ["nowhere.png" : str] sample_world
                         = (Throw (ENOENT "stat" "nowhere.png"), w'))
    by (eexists; reflexivity).
  destruct E as [w' E].
  rewrite E; f_equal.
  exact (@flag_throws_only_before_touching_anything config ["nowhere.png" : str]
           sample_world w' (ENOENT "stat" "nowhere.png") E).
Defined.

Lemma flag_loop_unwritable (data : str) (known rest : list ImageFile) (f : ImageFile)
    (stats : Stats) (w : world) :
  store_writable w = false ->
  Forall (fun g => includes data (base64 g) = true) known ->
  includes data (base64 f) = false ->
  forEach (flag_file data) (known ++ f :: rest) stats w
  = (Halt in_exit 1,
     logged exiting
       (logged (log_line ("Error storing file: " +++ filePath f) 2
                  (Some (EACCES "store.db")))
          (flagged_world data known w))).
Proof.
  intros Hw Hk Hf; revert w Hw; induction Hk as [|g known Hg Hk IH]; intros w Hw.
  - cbn [app forEach]; unfold bind.
    now rewrite flag_file_unwritable.
  - cbn [app forEach]; unfold bind.
    rewrite flag_file_known by exact Hg.
    rewrite IH by (now rewrite logged_store_writable).
    now rewrite flagged_world_cons, Hg.
Qed.

(** X18.  With a store that cannot be written, flag stops at the first file
    it has to store.  The files before it, all found in the store text, get
    their "File already exists" message; for the first file that is not found
    flag logs the critical message "Error storing file" with the error of
    appendFileSync and ends the process in exit: no "Flag complete" message,
    and the files after it are not looked at. *)
Theorem flag_stops_at_the_first_file_it_cannot_store
    (cfg : Config) (args : list str) (w w0 : world)
    (known rest : list ImageFile) (f : ImageFile) (stats : Stats) (data : str) :
  preload cfg args w = (Ret (known ++ f :: rest, stats, data), w0) ->
  store_writable w = false ->
  Forall (fun g => includes data (base64 g) = true) known ->
  includes data (base64 f) = false ->
  @flag cfg unit args w
  = (Halt in_exit 1,
     logged exiting
       (logged (log_line ("Error storing file: " +++ filePath f) 2
                  (Some (EACCES "store.db")))
          (flagged_world data known w))).
Proof.
  intros E Hw Hk Hf.
  destruct (preload_Ret_inv cfg args w E) as (-> & -> & _).
  unfold flag, bind at 1; rewrite E.
  unfold bind at 1; now rewrite flag_loop_unwritable.
Qed.

Lemma flag_stops_at_the_first_file_it_cannot_store_witness :
  console (snd (@flag config unit ["imgs" : str]
                  (mkWorld sample_tree (Some []) false [] true [])))
  = [console_info (log_line "Error storing file: imgs/a.png" 2
                     (Some (EACCES "store.db")));
     console_info exiting].
Proof.
  rewrite (@flag_stops_at_the_first_file_it_cannot_store config ["imgs" : str]
             (mkWorld sample_tree (Some []) false [] true [])
             (mkWorld sample_tree (Some []) false [] true [])
             [] [mkImageFile "imgs/b.png" "ABCD" (Some ["ABCD" : str])]
             (mkImageFile "imgs/a.png" "ABCD" (Some ["ABCD" : str]))
             (mkStats 0 2) [] eq_refl eq_refl (Forall_nil _) eq_refl).
  reflexivity.
Defined.

(** * One entry that cannot be read *)

Lemma read_image_not_File (cfg : Config) (tree : str -> option node) (path : str) :
  (forall content, tree path <> Some (File content)) ->
  exists e, read_image cfg tree path = Throw e.
Proof.
  intros H; unfold read_image.
  destruct (tree path) as [[content|items|]|]; eauto.
  now destruct (H content).
Qed.

Lemma collect_throws (cfg : Config) (tree : str -> option node) (dir item : str)
    (items : list str) (acc : list ImageFile) :
  In item items ->
  validate cfg (dir +++ "/" +++ item) = Ret true ->
  (forall content, tree (dir +++ "/" +++ item) <> Some (File content)) ->
  exists e, collect cfg tree dir items acc = Throw e.
Proof.
  intros Hin Hv Hu; revert acc; induction items as [|i rest IH]; intros acc;
    [destruct Hin|].
  cbn [collect].
  destruct Hin as [-> | Hin].
  - rewrite Hv.
    destruct (read_image_not_File cfg tree (dir +++ "/" +++ item) Hu) as [e ->].
    eauto.
  - pose proof (no_Halt_validate cfg (dir +++ "/" +++ i)) as V.
    pose proof (read_image_no_Halt cfg tree (dir +++ "/" +++ i)) as I1.
    destruct (validate cfg (dir +++ "/" +++ i)) as [[|]|e|site n];
      [|now apply IH | eauto | destruct V].
    destruct (read_image cfg tree (dir +++ "/" +++ i)) as [f|e|site n];
      [now apply IH | eauto | destruct I1].
Qed.

(** X19.  One accepted entry that cannot be read stops the whole directory.
    When a directory holds an entry whose path validates and that is not a
    readable file (a sub-directory, say, or an entry that has vanished),
    preload throws, whatever the other entries are, and leaves the world as it
    found it: no file of the directory is flagged or checked. *)
Theorem unreadable_accepted_entry_stops_the_directory
    (cfg : Config) (dir item : str) (items : list str) (rest : list str) (w : world) :
  tree w dir = Some (Directory items) ->
  In item items ->
  validate cfg (dir +++ "/" +++ item) = Ret true ->
  (forall content, tree w (dir +++ "/" +++ item) <> Some (File content)) ->
  exists e, preload cfg (dir :: rest) w = (Throw e, w).
Proof.
  intros Ht Hin Hv Hu.
  destruct (@collect_throws cfg (tree w) dir item items [] Hin Hv Hu) as [e He].
  exists e; rewrite preload_eq; unfold candidates; cbn [hd_error].
  now rewrite Ht, He.
Qed.

Lemma unreadable_accepted_entry_stops_the_directory_witness :
  let w := mkWorld (fun p => if str_eqb p "d" then Some (Directory ["a.png" : str; "sub.png" : str])
                             else if str_eqb p "d/a.png"
                                  then Some (File [Byte.x00; Byte.x10; Byte.x83])
                                  else if str_eqb p "d/sub.png" then Some (Directory [])
                                       else None)
             (Some []) true [] true [] in
  exists e, preload config ["d" : str] w = (Throw e, w).
Proof.
  intros w.
  apply (@unreadable_accepted_entry_stops_the_directory config "d" "sub.png"
           ["a.png" : str; "sub.png" : str] [] w).
  - reflexivity.
  - right; left; reflexivity.
  - reflexivity.
  - intros content; discriminate.
Defined.

(** * The lines of the store *)

Lemma split_lines_entry (b rest current : str) :
  ~ In "010"%char b ->
  split_lines current (b ++ "010"%char :: rest)
  = (current ++ b) :: split_lines [] rest.
Proof.
  revert current; induction b as [|c b IH]; intros current Hn.
  - cbn [app split_lines]; rewrite app_nil_r.
    now rewrite Ascii.eqb_refl.
  - cbn [app split_lines].
    destruct (Ascii.eqb c "010") eqn:Ec.
    + apply Ascii.eqb_eq in Ec; subst c; destruct Hn; now left.
    + rewrite IH by (intros H; apply Hn; now right).
      now rewrite <- app_assoc.
Qed.

Lemma split_lines_terminated (d e current : str) :
  split_lines current ((d ++ LF) ++ e)
  = split_lines current (d ++ LF) ++ split_lines [] e.
Proof.
  revert current; induction d as [|c d IH]; intros current.
  - cbn; reflexivity.
  - cbn [app split_lines].
    destruct (Ascii.eqb c "010"); [cbn [app]; f_equal|]; apply IH.
Qed.

Lemma split_lines_whole_lines (d e : str) :
  whole_lines d ->
  split_lines [] (d ++ e) = split_lines [] d ++ split_lines [] e.
Proof.
  intros [-> | [d' ->]]; [reflexivity | apply split_lines_terminated].
Qed.

Lemma split_lines_entries (files : list ImageFile) :
  Forall (fun f => is_base64 (base64 f)) files ->
  split_lines [] (List.concat (map store_entry files)) = map base64 files.
Proof.
  induction 1 as [|f files Hf _ IH]; [reflexivity|].
  cbn [map List.concat]; unfold store_entry at 1, LF.
  rewrite <- app_assoc; cbn [app].
  rewrite split_lines_entry by (now apply base64_has_no_newline).
  cbn [app]; now rewrite IH.
Qed.

Lemma whole_lines_entries (d : str) (files : list ImageFile) :
  whole_lines d -> whole_lines (d ++ List.concat (map store_entry files)).
Proof.
  intros Hd; induction files as [|f files IH] using rev_ind.
  - cbn; now rewrite app_nil_r.
  - right; exists (d ++ List.concat (map store_entry files) ++ base64 f).
    rewrite map_app, concat_app; cbn [map List.concat]; unfold store_entry at 2.
    now rewrite app_nil_r, <- !app_assoc.
Qed.

Lemma read_image_is_base64 (cfg : Config) (tree : str -> option node) (path : str)
    (f : ImageFile) :
  read_image cfg tree path = Ret f -> is_base64 (base64 f).
Proof.
  unfold read_image.
  destruct (tree path) as [[content|items|]|]; try discriminate.
  destruct (new_RegExp_flags (chunk_pattern cfg) "g"); try discriminate.
  intros H; injection H as <-; apply base64_encode_is_base64.
Qed.

Lemma collect_is_base64 (cfg : Config) (tree : str -> option node) (dir : str)
    (items : list str) (acc files : list ImageFile) :
  Forall (fun f => is_base64 (base64 f)) acc ->
  collect cfg tree dir items acc = Ret files ->
  Forall (fun f => is_base64 (base64 f)) files.
Proof.
  revert acc; induction items as [|i rest IH]; intros acc Ha; cbn [collect].
  - now intros H; injection H as <-.
  - destruct (validate cfg (dir +++ "/" +++ i)) as [[|]|e|site n];
      try discriminate; [|now apply IH].
    destruct (read_image cfg tree (dir +++ "/" +++ i)) as [f|e|site n] eqn:Er;
      try discriminate.
    apply IH, Forall_app; split; [exact Ha|].
    constructor; [now apply (read_image_is_base64 cfg tree _ Er) | constructor].
Qed.

Lemma candidates_is_base64 (cfg : Config) (tree : str -> option node)
    (args : list str) (files : list ImageFile) :
  candidates cfg tree args = Ret files ->
  Forall (fun f => is_base64 (base64 f)) files.
Proof.
  unfold candidates.
  destruct (hd_error args) as [path|]; [|discriminate].
  destruct (tree path) as [[content|items|]|]; try discriminate.
  - destruct (validate cfg path) as [[|]|e|site n]; try discriminate.
    + destruct (read_image cfg tree path) as [f|e|site n] eqn:Er; try discriminate.
      intros H; injection H as <-.
      constructor; [now apply (read_image_is_base64 cfg tree _ Er) | constructor].
    + intros H; injection H as <-; constructor.
  - now apply collect_is_base64.
  - intros H; injection H as <-; constructor.
Qed.

(** X20.  flag keeps store.db a file of whole lines and adds one line per
    stored file.  When the text of the store is empty or ends with a newline,
    then after a flag that has run to its end with a store that can be
    written the text ends with a newline again, and the lines of the store
    are the lines it had followed by the base64 texts of the files stored, one
    per line, in the order of the batch. *)
Theorem flag_adds_one_line_per_stored_file
    (cfg : Config) (args : list str) (w w0 : world)
    (files : list ImageFile) (stats : Stats) (data : str) :
  preload cfg args w = (Ret (files, stats, data), w0) ->
  store_writable w = true ->
  whole_lines data ->
  let w1 := snd (@flag cfg unit args w) in
  whole_lines (store_text w1) /\
  store_lines w1 = split_lines [] data ++ map base64 (new_files data files).
Proof.
  intros E Hw Hd w1.
  pose proof (flag_batch_eq (A := unit) cfg args w E Hw) as F.
  destruct (preload_Ret_inv cfg args w E) as (-> & -> & _ & Hs & Hc).
  assert (S1 : store_text w1
               = data ++ List.concat (map store_entry (new_files data files))).
  { unfold w1; rewrite F; cbn [snd].
    rewrite !logged_store_text, flagged_world_store_text.
    unfold store_text; now rewrite Hs. }
  unfold store_lines; rewrite S1; split.
  - now apply whole_lines_entries.
  - rewrite split_lines_whole_lines by exact Hd.
    f_equal; apply split_lines_entries.
    apply candidates_is_base64 in Hc.
    unfold new_files; rewrite Forall_forall in *.
    intros f Hf; apply Hc; now apply filter_In in Hf.
Qed.

Lemma flag_adds_one_line_per_stored_file_witness :
  store_lines (snd (@flag config unit ["imgs" : str] sample_world))
  = ["ABCD" : str; "ABCD" : str].
Proof.
  destruct (@flag_adds_one_line_per_stored_file config ["imgs" : str]
              sample_world sample_world
              [mkImageFile "imgs/a.png" "ABCD" (Some ["ABCD" : str]);
               mkImageFile "imgs/b.png" "ABCD" (Some ["ABCD" : str])]
              (mkStats 0 2) [] eq_refl eq_refl (or_introl eq_refl)) as [_ H].
  exact H.
Defined.

(** * logs.log decides nothing *)

Lemma blind_ret {A} (a : A) : blind_to_logs (ret a).
Proof. intros w w' H; now split. Qed.

Lemma blind_lift {A} (r : result A) : blind_to_logs (lift r).
Proof. intros w w' H; now split. Qed.

Lemma blind_bind {A C} (m : M A) (k : A -> M C) :
  blind_to_logs m -> (forall a, blind_to_logs (k a)) -> blind_to_logs (bind m k).
Proof.
  intros Hm Hk w w' H; unfold bind.
  destruct (Hm w w' H) as [E S].
  destruct (m w) as [[a|e|site n] w1], (m w') as [[a'|e'|site' n'] w1'];
    cbn [fst snd] in *; try discriminate E; inversion E; subst;
    [now apply Hk | now split | now split].
Qed.

Lemma blind_try_catch {A} (m : M A) (h : error -> M A) :
  blind_to_logs m -> (forall e, blind_to_logs (h e)) -> blind_to_logs (try_catch m h).
Proof.
  intros Hm Hh w w' H; unfold try_catch.
  destruct (Hm w w' H) as [E S].
  destruct (m w) as [[a|e|site n] w1], (m w') as [[a'|e'|site' n'] w1'];
    cbn [fst snd] in *; try discriminate E; inversion E; subst;
    [now split | now apply Hh | now split].
Qed.

Lemma blind_forEach {A S} (body : S -> A -> M S) (l : list A) (s : S) :
  (forall s a, blind_to_logs (body s a)) -> blind_to_logs (forEach body l s).
Proof.
  intros Hb; revert s; induction l as [|a l IH]; intros s; cbn [forEach].
  - apply blind_ret.
  - apply blind_bind; auto.
Qed.

Lemma blind_if {A} (b : bool) (m1 m2 : M A) :
  blind_to_logs m1 -> blind_to_logs m2 -> blind_to_logs (if b then m1 else m2).
Proof. now destruct b. Qed.

Lemma blind_fs_statSync (path : option str) : blind_to_logs (fs_statSync path).
Proof.
  intros w w' H; pose proof H as (T & _); unfold fs_statSync.
  destruct path as [p|]; [rewrite T; destruct (tree w' p)|]; now split.
Qed.

Lemma blind_fs_readdirSync (path : str) : blind_to_logs (fs_readdirSync path).
Proof.
  intros w w' H; pose proof H as (T & _); unfold fs_readdirSync.
  rewrite T; destruct (tree w' path) as [[]|]; now split.
Qed.

Lemma blind_fs_readFileSync (path : str) : blind_to_logs (fs_readFileSync path).
Proof.
  intros w w' H; pose proof H as (T & _); unfold fs_readFileSync.
  rewrite T; destruct (tree w' path) as [[]|]; now split.
Qed.

Lemma blind_fs_readFileSync_store_db : blind_to_logs fs_readFileSync_store_db.
Proof.
  intros w w' H; pose proof H as (_ & D & _); unfold fs_readFileSync_store_db.
  rewrite D; destruct (store_db w'); now split.
Qed.

Lemma blind_fs_existsSync_store_db : blind_to_logs fs_existsSync_store_db.
Proof.
  intros w w' H; pose proof H as (_ & D & _); unfold fs_existsSync_store_db.
  rewrite D; now split.
Qed.

Lemma blind_fs_writeFileSync_store_db (d : str) :
  blind_to_logs (fs_writeFileSync_store_db d).
Proof.
  intros w w' H; pose proof H as (T & D & W); unfold fs_writeFileSync_store_db.
  rewrite W; destruct (store_writable w') eqn:Ew; cbn [fst snd]; [|now split].
  split; [reflexivity|].
  repeat split; cbn [tree store_db store_writable set_store_db]; congruence.
Qed.

Lemma blind_fs_appendFileSync_store_db (d : str) :
  blind_to_logs (fs_appendFileSync_store_db d).
Proof.
  intros w w' H; pose proof H as (T & D & W); unfold fs_appendFileSync_store_db.
  rewrite W; destruct (store_writable w') eqn:Ew; cbn [fst snd]; [|now split].
  split; [reflexivity|].
  repeat split; cbn [tree store_db store_writable set_store_db]; try congruence.
  unfold store_text; now rewrite D.
Qed.

Lemma same_files_logged (line : str) (w w' : world) :
  same_files w w' -> same_files (logged line w) (logged line w').
Proof.
  intros (T & D & W); unfold same_files.
  now rewrite !logged_tree, !logged_store_db, !logged_store_writable.
Qed.

Lemma blind_log (message : str) (level : nat) (err : option error) :
  blind_to_logs (log message level err).
Proof.
  intros w w' H; rewrite !log_eq; cbn [fst snd].
  split; [reflexivity | now apply same_files_logged].
Qed.

Lemma blind_exit {A} (message : str) (level : nat) (err : option error) :
  blind_to_logs (@exit A message level err).
Proof.
  intros w w' H; rewrite !exit_eq; cbn [fst snd].
  split; [reflexivity | now apply same_files_logged, same_files_logged].
Qed.

Lemma blind_help {A} (argv2 : option str) : blind_to_logs (@help A argv2).
Proof. intros w w' H; split; [reflexivity | exact H]. Qed.

Lemma blind_new_ImageFile (cfg : Config) (path : str) :
  blind_to_logs (new_ImageFile cfg path).
Proof.
  unfold new_ImageFile.
  apply blind_bind; [apply blind_fs_readFileSync|]; intros content.
  apply blind_bind; [apply blind_lift|]; intros r.
  apply blind_ret.
Qed.

Lemma blind_preload (cfg : Config) (args : list str) : blind_to_logs (preload cfg args).
Proof.
  unfold preload.
  apply blind_bind; [apply blind_fs_statSync|]; intros arg.
  apply blind_bind.
  { destruct arg; try apply blind_ret.
    apply blind_bind; [apply blind_fs_readdirSync|]; intros entries.
    apply blind_forEach; intros files item.
    apply blind_bind; [apply blind_lift|]; intros ok.
    apply blind_if; [|apply blind_ret].
    apply blind_bind; [apply blind_new_ImageFile|]; intros image.
    apply blind_ret. }
  intros files.
  apply blind_bind.
  { destruct arg; try apply blind_ret.
    apply blind_bind; [apply blind_lift|]; intros ok.
    apply blind_if; [|apply blind_ret].
    apply blind_bind; [apply blind_new_ImageFile|]; intros image.
    apply blind_ret. }
  intros files'.
  apply blind_bind; [apply blind_if; [apply blind_exit | apply blind_ret]|].
  intros _.
  apply blind_bind; [apply blind_fs_readFileSync_store_db|]; intros data.
  apply blind_ret.
Qed.

Lemma blind_store (file : ImageFile) (data : str) : blind_to_logs (store file data).
Proof.
  unfold store.
  apply blind_bind; [apply blind_lift|]; intros already.
  apply blind_if.
  - apply blind_bind; [apply blind_log | intros _; apply blind_ret].
  - apply blind_try_catch; [|intros e; apply blind_exit].
    apply blind_bind; [apply blind_fs_appendFileSync_store_db|]; intros _.
    apply blind_bind; [apply blind_log | intros _; apply blind_ret].
Qed.

Lemma blind_flag_file (data : str) (stats : Stats) (file : ImageFile) :
  blind_to_logs (flag_file data stats file).
Proof.
  unfold flag_file.
  apply blind_bind; [apply blind_lift|]; intros exists_.
  apply blind_if.
  - apply blind_bind; [apply blind_store | intros save; apply blind_ret].
  - apply blind_bind; [apply blind_log | intros _; apply blind_ret].
Qed.

Lemma blind_check_file (args : list str) (data : str) (stats : Stats)
    (file : ImageFile) :
  blind_to_logs (check_file args data stats file).
Proof.
  unfold check_file.
  apply blind_bind; [apply blind_if; [apply blind_lift | apply blind_ret]|].
  intros chunkExists.
  apply blind_bind; [apply blind_lift|]; intros found.
  apply blind_if; (apply blind_bind; [apply blind_log | intros _; apply blind_ret]).
Qed.

Lemma blind_flag {A} (cfg : Config) (args : list str) : blind_to_logs (@flag cfg A args).
Proof.
  unfold flag.
  apply blind_bind; [apply blind_preload|]; intros [[files stats] data].
  apply blind_bind; [apply blind_forEach; intros s a; apply blind_flag_file|].
  intros stats'; apply blind_exit.
Qed.

Lemma blind_check {A} (cfg : Config) (args : list str) :
  blind_to_logs (@check cfg A args).
Proof.
  unfold check.
  apply blind_bind; [apply blind_preload|]; intros [[files stats] data].
  apply blind_bind; [apply blind_forEach; intros s a; apply blind_check_file|].
  intros stats'; apply blind_exit.
Qed.

Lemma blind_eval_call (cfg : Config) (command : str) (args : list str) :
  existsb (str_eqb command) declared = true ->
  blind_to_logs (eval_call cfg command args).
Proof.
  unfold declared; cbn [existsb]; intros Hd; unfold eval_call.
  destruct (str_eqb command "flag"); [apply blind_flag|].
  destruct (str_eqb command "check"); [apply blind_check|].
  destruct (str_eqb command "help"); [apply blind_help|].
  destruct (str_eqb command "exit"); [apply blind_exit|].
  destruct (str_eqb command "log"); [apply blind_log|].
  destruct (str_eqb command "validate");
    [apply blind_bind; [apply blind_lift | intros _; apply blind_ret]|].
  destruct (str_eqb command "preload");
    [apply blind_bind; [apply blind_preload | intros _; apply blind_ret]|].
  destruct (str_eqb command "store"); [apply blind_lift|].
  destruct (str_eqb command "ImageFile"); [apply blind_lift|].
  cbn [orb existsb] in *; rewrite Hd; apply blind_lift.
Qed.

Lemma blind_main (cfg : Config) (argv : list str) :
  within_script argv = true -> blind_to_logs (main cfg argv).
Proof.
  intros Hc w w' H; rewrite !main_cases.
  destruct argv as [|command args]; [now apply blind_exit|].
  destruct (existsb (str_eqb "--help") (command :: args)) eqn:Hh;
    [now apply blind_help|].
  pose proof (within_script_declared command args Hc Hh) as Hd.
  assert (K : blind_to_logs
                (try_catch (eval_call cfg command args)
                   (fun err => exit ("Command not found: " +++ command) 2
                                 (Some err))))
    by (apply blind_try_catch; [now apply blind_eval_call | intros e; apply blind_exit]).
  pose proof H as (T & D & W); rewrite <- D, <- W.
  destruct (store_db w) as [d|] eqn:Ed; [now apply K|].
  destruct (store_writable w) eqn:Ew.
  - apply K; unfold same_files; cbn [tree store_db store_writable set_store_db].
    repeat split; congruence.
  - split; [reflexivity | exact H].
Qed.

(** X21.  logs.log and the console decide nothing.  Two runs that stay
    within the script (no command word, --help among the words, or a command
    word that index.js declares), with the same arguments, in worlds with the
    same input tree (logs.log is not among the input files) and the same
    store end the same way and leave the same store.db, whatever logs.log
    holds and whether or not it can be written:
    a failure to log is caught in log and changes neither what is stored nor
    how the process ends. *)
Theorem logs_decide_nothing (cfg : Config) (argv : list str) (w w' : world) :
  within_script argv = true ->
  tree w = tree w' ->
  store_db w = store_db w' ->
  store_writable w = store_writable w' ->
  fst (run cfg argv w) = fst (run cfg argv w') /\
  store_db (snd (run cfg argv w)) = store_db (snd (run cfg argv w')).
Proof.
  intros Hc T D W.
  destruct (@blind_main cfg argv Hc w w') as [E (_ & S & _)]; [now repeat split|].
  unfold run.
  destruct (main cfg argv w) as [[a|e|site n] w1],
           (main cfg argv w') as [[a'|e'|site' n'] w1'];
    cbn [fst snd] in *; try discriminate E; inversion E; subst; now split.
Qed.

(** * A store that is missing *)

(** X22.  The first lines of the script, for a run with a command and
    without --help in a world without store.db.  When the store can be
    created, the run is the run of the same arguments in the world with an
    empty store.db.  When it cannot, writeFileSync throws outside every try:
    the exception is caught by nobody, nothing is logged, and the command is
    not reached. *)
Theorem missing_store_is_created_before_the_command
    (cfg : Config) (command : str) (args : list str) (w : world) :
  store_db w = None ->
  existsb (str_eqb "--help") (command :: args) = false ->
  (store_writable w = true ->
   run cfg (command :: args) w = run cfg (command :: args) (set_store_db [] w)) /\
  (store_writable w = false ->
   run cfg (command :: args) w = (Uncaught (EACCES "store.db"), w)).
Proof.
  intros Hd Hh; split; intros Hw; unfold run.
  - rewrite (main_creates_store cfg command args w Hd Hw Hh).
    now rewrite (@main_with_store cfg command args [] (set_store_db [] w) eq_refl Hh).
  - unfold main, bind, ret, fs_existsSync_store_db, fs_writeFileSync_store_db.
    cbn [List.length Nat.eqb hd tl]; rewrite Hh, Hd; cbn [negb]; rewrite Hw.
    reflexivity.
Qed.

End Runtime.

(** * The statements about whole runs, at sample inputs

    The runs below are those of a runtime in which a command word that is
    not of the script names nothing. *)



Lemma every_run_only_appends_to_the_store_witness :
  exists more : str,
    store_text (snd (run unbound_word config ["flag" : str; "imgA.png" : str]
                       sample_world))
    = store_text sample_world ++ more.
Proof.
  apply (@every_run_only_appends_to_the_store unbound_word config
           ["flag" : str; "imgA.png" : str] sample_world).
  reflexivity.
Defined.

Lemma unwritable_store_is_left_as_it_is_witness :
  store_db (snd (run unbound_word config ["flag" : str; "imgA.png" : str]
                   (mkWorld sample_tree (Some []) false [] true [])))
  = Some [].
Proof.
  apply (@unwritable_store_is_left_as_it_is unbound_word config
           ["flag" : str; "imgA.png" : str]
           (mkWorld sample_tree (Some []) false [] true []));
    reflexivity.
Defined.

Lemma logs_decide_nothing_witness :
  store_db (snd (run unbound_word config ["flag" : str; "imgA.png" : str]
                   sample_world))
  = store_db (snd (run unbound_word config ["flag" : str; "imgA.png" : str]
                     (mkWorld sample_tree (Some []) true ("old log" : str) false []))).
Proof.
  apply (@logs_decide_nothing unbound_word config ["flag" : str; "imgA.png" : str]
           sample_world
           (mkWorld sample_tree (Some []) true ("old log" : str) false []));
    reflexivity.
Defined.

Lemma help_wins_over_every_command_witness :
  run unbound_word config ["flag" : str; "imgA.png" : str; "--help" : str]
    (mkWorld sample_tree None true [] true [])
  = (Exited in_help 1,
     mkWorld sample_tree None true [] true [console_info help_flag]).
Proof.
  apply (@help_wins_over_every_command unbound_word config
           ["flag" : str; "imgA.png" : str; "--help" : str]
           (mkWorld sample_tree None true [] true [])).
  reflexivity.
Defined.

Lemma missing_path_is_reported_as_command_not_found_witness :
  console (snd (run unbound_word config ["flag" : str; "nowhere.png" : str]
                  sample_world))
  = [console_info
       (log_line "Command not found: flag" 2
          (Some (ENOENT "stat" "nowhere.png")));
     console_info exiting] /\
  error_toString (ENOENT "stat" "nowhere.png")
  = "Error: ENOENT: no such file or directory, stat 'nowhere.png'".
Proof.
  rewrite (@missing_path_is_reported_as_command_not_found unbound_word config
             "flag" "nowhere.png" [] [] sample_world
             (or_introl eq_refl) eq_refl eq_refl eq_refl).
  split; reflexivity.
Defined.

Lemma missing_store_is_created_before_the_command_witness :
  store_db (snd (run unbound_word config ["flag" : str; "imgA.png" : str]
                   (mkWorld sample_tree None true [] true [])))
  = Some ("ABCD" +++ LF).
Proof.
  destruct (@missing_store_is_created_before_the_command unbound_word config "flag"
              ["imgA.png" : str] (mkWorld sample_tree None true [] true [])
              eq_refl eq_refl) as [H _].
  rewrite (H eq_refl); reflexivity.
Defined.
